(** * Workersz: the event/action worker loop of [workersz/base.py]

    A shallow embedding of [EventAction], [WorkerBase] (the simplified
    loop) and [WorkerPollingBase] (the command-aware loop), followed by
    the properties of the detection pass, the registry and the run loop.

    Python objects are modelled as follows.
    - A [threading.Event] is identified by a natural number; the store of
      all events is the set of those whose flag is set.
    - An [EventAction] carries its object identity [ident]: the class
      defines neither [__eq__] nor [__hash__], so [action in self.actions]
      and dict lookups compare identities.
    - A user callable (an action's callback, the work target) acts on the
      event store and either returns a value or raises.  The bound method
      [self._quit] is a callable of its own, since it writes [to_quit].
    - The overridable [do_*] methods of a worker see the event store and
      the worker's [to_quit] flag.
    - Every invocation of a callback, of the target and of [do_result] is
      recorded in a trace that user code cannot touch. *)

From stdpp Require Import base gmap sets list strings.
From Stdlib Require Import ZArith.

Local Open Scope Z_scope.
Local Open Scope nat_scope.

#[local] Set Warnings "-register-all".

(** ** Python values *)

Inductive PyVal : Type :=
| VNone
| VBool (b : bool)
| VInt (z : Z)
| VStr (s : string)
| VList (l : list PyVal)
| VTuple (l : list PyVal).

(** [a == b] on these values: [bool] is a subclass of [int], so [False]
    equals [0]; values of unrelated types are unequal. *)
Fixpoint py_eq (a b : PyVal) : bool :=
  match a, b with
  | VNone, VNone => true
  | VBool x, VBool y => Z.eqb (Z.b2z x) (Z.b2z y)
  | VBool x, VInt y => Z.eqb (Z.b2z x) y
  | VInt x, VBool y => Z.eqb x (Z.b2z y)
  | VInt x, VInt y => Z.eqb x y
  | VStr x, VStr y => String.eqb x y
  | VList x, VList y =>
      (fix go (l1 l2 : list PyVal) : bool :=
         match l1, l2 with
         | [], [] => true
         | u :: l1', v :: l2' => py_eq u v && go l1' l2'
         | _, _ => false
         end) x y
  | VTuple x, VTuple y =>
      (fix go (l1 l2 : list PyVal) : bool :=
         match l1, l2 with
         | [], [] => true
         | u :: l1', v :: l2' => py_eq u v && go l1' l2'
         | _, _ => false
         end) x y
  | _, _ => false
  end.

(** Truth value of an object, as tested by [if item:]. *)
Definition py_truthy (v : PyVal) : bool :=
  match v with
  | VNone => false
  | VBool b => b
  | VInt z => negb (Z.eqb z 0)
  | VStr s => negb (String.eqb s "")
  | VList l => negb (Nat.eqb (length l) 0)
  | VTuple l => negb (Nat.eqb (length l) 0)
  end.

Inductive PyExc : Type :=
| Exception (msg : string)
| TypeError (msg : string)
| UserError (v : PyVal).

(** ** Callables and actions *)

Definition Kwargs : Type := list (string * PyVal).

(** A user function: positional arguments, keyword arguments, the event
    store before; the event store after and the outcome. *)
Definition UserFn : Type :=
  list PyVal → Kwargs → gset nat → gset nat * (PyVal + PyExc).

Inductive Callable : Type :=
| BoundQuit
| Fn (f : UserFn).

(** [EventAction.__init__]: [opt_automatic] is [False] unless the option
    [automatic_trigger] is given. *)
Record EventAction : Type := mkEventAction {
  ident : nat;
  event : nat;
  action : Callable;
  args : list PyVal;
  kwargs : Kwargs;
  opt_automatic : bool
}.

Inductive Obs : Type :=
| ObsCall (a : nat) (pos : list PyVal) (kw : Kwargs)
| ObsWork (pos : list PyVal) (kw : Kwargs)
| ObsResult (v : PyVal).

(** ** The worker and its world

    The fields of [self] ([self_args] and [self_kwargs] are the worker's
    [args] and [kwargs]), the event store and the trace.  [actions_events]
    is the dict of [add_action], kept as its insertion history. *)
Record World : Type := mkWorld {
  target : option Callable;
  self_args : list PyVal;
  self_kwargs : Kwargs;
  to_quit : bool;
  quit_event : option nat;
  command_event : option nat;
  actions : list EventAction;
  actions_events : list (EventAction * nat);
  signals : gset nat;
  trace : list Obs
}.

Definition set_to_quit (b : bool) (w : World) : World :=
  mkWorld (target w) (self_args w) (self_kwargs w) b (quit_event w)
          (command_event w) (actions w) (actions_events w) (signals w) (trace w).

Definition set_signals (s : gset nat) (w : World) : World :=
  mkWorld (target w) (self_args w) (self_kwargs w) (to_quit w) (quit_event w)
          (command_event w) (actions w) (actions_events w) s (trace w).

Definition set_registry (l : list EventAction) (d : list (EventAction * nat))
    (w : World) : World :=
  mkWorld (target w) (self_args w) (self_kwargs w) (to_quit w) (quit_event w)
          (command_event w) l d (signals w) (trace w).

Definition record (o : Obs) (w : World) : World :=
  mkWorld (target w) (self_args w) (self_kwargs w) (to_quit w) (quit_event w)
          (command_event w) (actions w) (actions_events w) (signals w)
          (trace w ++ [o]).

(** ** Computations that may raise *)

Inductive Result (A : Type) : Type :=
| Ok (a : A) (w : World)
| Raise (e : PyExc) (w : World).
Arguments Ok {A} a w.
Arguments Raise {A} e w.

Definition M (A : Type) : Type := World → Result A.

Definition M_ret {A} (a : A) : M A := λ w, Ok a w.
Definition M_bind {A B} (f : A → M B) (c : M A) : M B :=
  λ w, match c w with
       | Ok a w' => f a w'
       | Raise e w' => Raise e w'
       end.

#[export] Instance M_mret : MRet M := @M_ret.
#[export] Instance M_mbind : MBind M := @M_bind.

Definition raise {A} (e : PyExc) : M A := λ w, Raise e w.

(** Calling a callable with [*pos] and [**kw].  [_quit] takes no argument
    besides [self]. *)
Definition _quit : M PyVal := λ w, Ok VNone (set_to_quit true w).

Definition call (c : Callable) (pos : list PyVal) (kw : Kwargs) : M PyVal :=
  λ w,
    match c with
    | BoundQuit =>
        match pos, kw with
        | [], [] => _quit w
        | _, _ => Raise (TypeError "_quit() takes exactly 1 argument") w
        end
    | Fn f =>
        let '(s, r) := f pos kw (signals w) in
        match r with
        | inl v => Ok v (set_signals s w)
        | inr e => Raise e (set_signals s w)
        end
    end.

(** ** [threading.Event] *)

Definition event_is_set (e : nat) : M bool :=
  λ w, Ok (bool_decide (e ∈ signals w)) w.
Definition event_set (e : nat) : M PyVal :=
  λ w, Ok VNone (set_signals ({[e]} ∪ signals w) w).
Definition event_clear (e : nat) : M PyVal :=
  λ w, Ok VNone (set_signals (signals w ∖ {[e]}) w).

(** ** [EventAction] *)

(** The call of [self.action] on the captured [args] and [kwargs],
    recorded in the trace. *)
Definition invoke (a : EventAction) : M PyVal :=
  λ w, call (action a) (args a) (kwargs a)
            (record (ObsCall (ident a) (args a) (kwargs a)) w).

Definition is_set (a : EventAction) : M bool :=
  is_set ← event_is_set (event a);
  if is_set && opt_automatic a
  then invoke a ;; mret is_set
  else mret is_set.

Definition set (a : EventAction) : M PyVal := event_set (event a).
Definition clear (a : EventAction) : M PyVal := event_clear (event a).
Definition call_action (a : EventAction) : M PyVal := invoke a.

(** ** [WorkerBase]: the registry *)

(** [action in self.actions] *)
Definition action_in (a : EventAction) (l : list EventAction) : bool :=
  existsb (λ b, Nat.eqb (ident b) (ident a)) l.

(** [d[k] = v]: an existing key keeps its place and its key object. *)
Fixpoint dict_setitem (k : EventAction) (v : nat)
    (d : list (EventAction * nat)) : list (EventAction * nat) :=
  match d with
  | [] => [(k, v)]
  | (k', v') :: d' =>
      if Nat.eqb (ident k') (ident k) then (k', v) :: d'
      else (k', v') :: dict_setitem k v d'
  end.

Fixpoint dict_getitem (k : EventAction) (d : list (EventAction * nat))
    : option nat :=
  match d with
  | [] => None
  | (k', v') :: d' =>
      if Nat.eqb (ident k') (ident k) then Some v' else dict_getitem k d'
  end.

Definition add_action (a : EventAction) : M PyVal :=
  λ w,
    let event := event a in
    if action_in a (actions w)
    then Raise (Exception "Worker:add_action:: action already in <self.actions>") w
    else Ok VNone (set_registry (actions w ++ [a])
                                (dict_setitem a event (actions_events w)) w).

Definition event_by_action (a : EventAction) (w : World) : option nat :=
  dict_getitem a (actions_events w).

(** [for action, ev in d.iteritems(): if ev == event: return action];
    falling off the loop returns [None]. *)
Fixpoint first_bound (e : nat) (items : list (EventAction * nat))
    : option EventAction :=
  match items with
  | [] => None
  | (a, ev) :: items' => if Nat.eqb ev e then Some a else first_bound e items'
  end.

Section DictOrder.

(** The order in which a Python 2 dict yields its items is fixed by the
    hashes of the keys (here: addresses of the action objects) and the
    history of the table, not by the program. *)
Variable iteritems : list (EventAction * nat) → list (EventAction * nat).

Definition action_by_event (e : nat) (w : World) : option EventAction :=
  first_bound e (iteritems (actions_events w)).

End DictOrder.

(** ** [WorkerBase]: detection and dispatch *)

Fixpoint check_events_loop (l : list EventAction)
    (set_actions : list EventAction) : M (list EventAction) :=
  match l with
  | [] => mret set_actions
  | a :: l' =>
      b ← is_set a;
      check_events_loop l' (if b : bool then set_actions ++ [a] else set_actions)
  end.

Definition check_events : M (list EventAction) :=
  λ w, check_events_loop (actions w) [] w.

Fixpoint process_events (set_events_actions : list EventAction) : M PyVal :=
  match set_events_actions with
  | [] => mret VNone
  | act :: rest =>
      call_action act ;; event_clear (event act) ;; process_events rest
  end.

(** ** The overridable methods *)

Definition HookFn : Type :=
  gset nat → bool → (gset nat * bool) * (PyVal + PyExc).

Class Hooks : Type := {
  do_command : HookFn;
  do_postevents : HookFn;
  do_postwork : HookFn;
  do_result : PyVal → HookFn
}.

Definition hook_return (v : PyVal) : HookFn := λ s q, ((s, q), inl v).

(** The methods as the base classes define them: [do_command] and
    [do_result] have no [return], the other two [return True]. *)
Definition base_hooks : Hooks := {|
  do_command := hook_return VNone;
  do_postevents := hook_return (VBool true);
  do_postwork := hook_return (VBool true);
  do_result := λ _, hook_return VNone
|}.

Definition run_hook (h : HookFn) : M PyVal :=
  λ w,
    let '((s, q), r) := h (signals w) (to_quit w) in
    let w' := set_to_quit q (set_signals s w) in
    match r with
    | inl v => Ok v w'
    | inr e => Raise e w'
    end.

(** The call of [self.target] on positional arguments [pos] and the
    worker's [kwargs]. *)
Definition call_target (pos : list PyVal) : M PyVal :=
  λ w,
    match target w with
    | None => Raise (TypeError "'NoneType' object is not callable") w
    | Some c => call c pos (self_kwargs w) (record (ObsWork pos (self_kwargs w)) w)
    end.

Definition do_work (item : PyVal) : M PyVal :=
  λ w,
    if py_truthy item
    then call_target (item :: self_args w) w
    else call_target (self_args w) w.

Definition call_do_result `{Hooks} (result : PyVal) : M PyVal :=
  λ w, run_hook (do_result result) (record (ObsResult result) w).

(** ** The run loops *)

Inductive Flow : Type := Continue | Break.
Inductive RunOutcome : Type := Stopped | OutOfFuel.

(** One pass through the body of [while not self.to_quit] in
    [WorkerBase.run]. *)
Definition run_body `{Hooks} : M Flow :=
  setevents_actions ← check_events;
  process_events setevents_actions ;;
  v ← run_hook do_postevents;
  if py_eq (VBool false) v then mret Break else
  result ← do_work VNone;
  call_do_result result ;;
  v ← run_hook do_postwork;
  if py_eq (VBool false) v then mret Break else mret Continue.

(** The same for [WorkerPollingBase.run]. *)
Definition run_body_polling `{Hooks} : M Flow :=
  setevents_actions ← check_events;
  v ← run_hook do_command;
  if py_eq (VBool false) v then mret Break else
  process_events setevents_actions ;;
  v ← run_hook do_postevents;
  if py_eq (VBool false) v then mret Break else
  result ← do_work VNone;
  call_do_result result ;;
  v ← run_hook do_postwork;
  if py_eq (VBool false) v then mret Break else mret Continue.

(** [fuel] bounds the number of passes. *)
Fixpoint loop (body : M Flow) (fuel : nat) : M RunOutcome :=
  λ w,
    if to_quit w then Ok Stopped w
    else match fuel with
         | 0 => Ok OutOfFuel w
         | S n =>
             (f ← body;
              match f with
              | Break => mret Stopped
              | Continue => loop body n
              end) w
         end.

Definition run `{Hooks} : nat → M RunOutcome := loop run_body.
Definition run_polling `{Hooks} : nat → M RunOutcome := loop run_body_polling.

(** [WorkerBase.__init__]; [qid] is the identity of the [EventAction]
    it allocates for the quit event. *)
Definition init (tgt : option Callable) (pos : list PyVal) (kw : Kwargs)
    (e_quit e_command : option nat) (qid : nat) (s : gset nat)
    : Result PyVal :=
  let w := mkWorld tgt pos kw false e_quit e_command [] [] s [] in
  match e_quit with
  | Some q => add_action (mkEventAction qid q (BoundQuit) [] [] false) w
  | None => Ok VNone w
  end.

(** * Vocabulary of the statements *)

Ltac unfold_M :=
  unfold mbind, mret, M_mbind, M_mret, M_bind, M_ret in *.

(** The world a computation leaves behind, however it ends. *)
Definition final {A} (r : Result A) : World :=
  match r with
  | Ok _ w => w
  | Raise _ w => w
  end.

Definition is_call (o : Obs) : Prop :=
  match o with
  | ObsCall _ _ _ => True
  | _ => False
  end.

(** A piece of trace made of callback invocations of actions of [L]. *)
Definition calls_from (L : list EventAction) (tr : list Obs) : Prop :=
  Forall (λ o, ∃ a, a ∈ L ∧ o = ObsCall (ident a) (args a) (kwargs a)) tr.

(** [w'] is [w] up to the event store, the flag [to_quit], which is only
    ever raised, and a trace extended by callback invocations of actions
    of [L]. *)
Record steps_to (L : list EventAction) (w w' : World) : Prop := mkStepsTo {
  st_target : target w' = target w;
  st_args : self_args w' = self_args w;
  st_kwargs : self_kwargs w' = self_kwargs w;
  st_actions : actions w' = actions w;
  st_dict : actions_events w' = actions_events w;
  st_quit : to_quit w = true → to_quit w' = true;
  st_trace : ∃ tr, trace w' = trace w ++ tr ∧ calls_from L tr
}.

(** Detection followed by dispatch, the first two steps of a pass. *)
Definition detect_dispatch : M PyVal :=
  setevents_actions ← check_events;
  process_events setevents_actions.

(** The action [__init__] registers for [e_quit]. *)
Definition quit_action (qid q : nat) : EventAction :=
  mkEventAction qid q BoundQuit [] [] false.

(** Several calls of [add_action] in a row. *)
Fixpoint add_actions (l : list EventAction) : M PyVal :=
  match l with
  | [] => mret VNone
  | a :: l' => add_action a ;; add_actions l'
  end.

(** A callback that returns and leaves every event as it found it. *)
Definition quiet (a : EventAction) : Prop :=
  match action a with
  | BoundQuit => args a = [] ∧ kwargs a = []
  | Fn f => ∀ s, ∃ v, f (args a) (kwargs a) s = (s, inl v)
  end.

(** Setting events one after the other. *)
Definition signal_all (order : list nat) (w : World) : World :=
  foldl (λ w e, final (event_set e w)) w order.

(** How often the callback of the action with identity [i] was invoked. *)
Fixpoint calls_of (i : nat) (tr : list Obs) : nat :=
  match tr with
  | [] => 0
  | ObsCall j _ _ :: tr' => (if Nat.eqb i j then 1 else 0) + calls_of i tr'
  | _ :: tr' => calls_of i tr'
  end.

(** [k] polls of an action, one after the other. *)
Fixpoint poll (k : nat) (a : EventAction) : M PyVal :=
  match k with
  | 0 => mret VNone
  | S k' => is_set a ;; poll k' a
  end.

(** The registry as [add_action] builds it. *)
Definition registry_ok (w : World) : Prop :=
  actions_events w = (λ a, (a, event a)) <$> actions w.

(** Hooks that return fixed values and do nothing else. *)
Definition const_hooks (vc ve vw : PyVal) : Hooks := {|
  do_command := hook_return vc;
  do_postevents := hook_return ve;
  do_postwork := hook_return vw;
  do_result := λ _, hook_return VNone
|}.

(** ** A dict order of CPython 2.7

    On a dict of at most five entries whose keys fall into distinct
    slots of its table of eight: an object hashes to its address rotated
    right by four bits, its slot is the hash modulo eight, and iteration
    visits the slots in increasing order.  [ident] is read as the
    address. *)
Definition slot (a : EventAction) : nat := (ident a / 16) mod 8.

Fixpoint slot_insert (x : EventAction * nat) (l : list (EventAction * nat))
    : list (EventAction * nat) :=
  match l with
  | [] => [x]
  | y :: l' =>
      if slot x.1 <=? slot y.1 then x :: y :: l' else y :: slot_insert x l'
  end.

Definition slot_order (d : list (EventAction * nat)) : list (EventAction * nat) :=
  foldr slot_insert [] d.

(** ** Scenarios *)

(** A callable that only returns, and one that returns the tuple of the
    positional arguments it got. *)
Definition nop : Callable := Fn (λ _ _ s, (s, inl VNone)).
Definition echo : Callable := Fn (λ pos _ s, (s, inl (VTuple pos))).

(** One registered action, on event [3]; no target. *)
Definition ping : EventAction := mkEventAction 7 3 nop [] [] false.

Definition ping_world : World :=
  mkWorld None [] [] false None None [ping] [(ping, 3)] ∅ [].

(** The same with event [3] set, under a [do_postevents] that vetoes. *)
Definition veto_world : World :=
  mkWorld None [] [] false None None [ping] [(ping, 3)] {[3]} [].

Definition veto_hooks : Hooks := {|
  do_command := hook_return VNone;
  do_postevents := hook_return (VBool false);
  do_postwork := hook_return (VBool true);
  do_result := λ _, hook_return VNone
|}.

(** A worker with a target and one fixed argument, no action. *)
Definition echo_world : World :=
  mkWorld (Some echo) [VStr "Hello world!"] [] false None None [] [] ∅ [].

(** Three actions on the events [1], [2] and [3]; the second is
    automatic and its callback only returns. *)
Definition three_actions : list EventAction :=
  [ mkEventAction 10 1 nop [] [] false;
    mkEventAction 20 2 nop [VStr "bla"] [] true;
    mkEventAction 30 3 nop [] [] false ].

Definition three_world : World :=
  mkWorld (Some nop) [] [] false None None three_actions
          ((λ a, (a, event a)) <$> three_actions) ∅ [].

(** An automatic action on event [1] whose callback sets event [2], as
    the bound method [set] of that event would, and an action on
    event [2]. *)
Definition relay : EventAction :=
  mkEventAction 10 1 (Fn (λ _ _ s, ({[2]} ∪ s, inl VNone))) [] [] true.

Definition relayed : EventAction := mkEventAction 20 2 nop [] [] false.

Definition relay_world : World :=
  mkWorld (Some nop) [] [] false None None [relay; relayed]
          [(relay, 1); (relayed, 2)] ∅ [].

(** The worker of [check_WorkerBase]: a target with one fixed argument,
    the quit event [1] and one more action, on event [2]; then both
    events set. *)
Definition happened : EventAction :=
  mkEventAction 200 2 nop [VStr "bla"] [] false.

Definition pretty_init : World :=
  final (init (Some echo) [VStr "Hello world!"] [] (Some 1) None 100 ∅).

Definition pretty_built : World := final (add_actions [happened] pretty_init).

Definition pretty_quitting : World := set_signals {[1; 2]} pretty_built.

(** One automatic action on event [2]; then event [2] set. *)
Definition auto_ping : EventAction :=
  mkEventAction 20 2 nop [VStr "bla"] [] true.

Definition auto_world : World :=
  mkWorld (Some nop) [] [] false None None [auto_ping] [(auto_ping, 2)] ∅ [].

Definition auto_signaled : World := final (event_set 2 auto_world).

(** Two actions on event [7]; the one registered first lies at the
    higher address. *)
Definition first_seven : EventAction := mkEventAction 4176 7 nop [] [] false.
Definition second_seven : EventAction := mkEventAction 4128 7 nop [] [] false.

Definition sevens_world : World :=
  final (add_actions [first_seven; second_seven]
           (final (init None [] [] None None 0 ∅))).

(** * The constructor of [EventAction] and the skeleton [Worker] *)

(** [options], the keyword arguments [**options] of [__init__], as the
    list of its items. *)
Fixpoint options_get (key : string) (options : Kwargs) : option PyVal :=
  match options with
  | [] => None
  | (k, v) :: options' =>
      if String.eqb k key then Some v else options_get key options'
  end.

(** [EventAction.__init__]: [i] is the identity of the new object.  The
    attribute keeps the value popped from [options]; [is_set] tests its
    truth, which is what the field [opt_automatic] holds. *)
Definition EventAction_init (i e : nat) (act : Callable)
    (pos : list PyVal) (kw : Kwargs) (options : Kwargs) : EventAction :=
  mkEventAction i e act pos kw
    (match options_get "automatic_trigger" options with
     | Some v => py_truthy v
     | None => false
     end).

(** The class [Worker] of the command-aware file.  It defines
    [check_events] and [process_events]; its [run] calls
    [self.do_process_events], which the class does not define, so that
    the attribute lookup raises [AttributeError] (an exception object that
    is neither of the two classes named in [PyExc], kept by its
    message). *)
Module Worker.

Definition check_events : M (list EventAction) := mret [].

Definition process_events (events_actions : list EventAction) : M PyVal :=
  mret VNone.

Definition AttributeError (name : string) : PyExc :=
  UserError (VStr ("AttributeError: 'Worker' object has no attribute '"
                     +:+ name +:+ "'")).

Definition do_process_events : M (list EventAction → M PyVal) :=
  raise (AttributeError "do_process_events").

Definition run_body `{Hooks} : M Flow :=
  setevents_actions ← check_events;
  v ← run_hook do_command;
  if py_eq (VBool false) v then mret Break else
  method ← do_process_events;
  method setevents_actions ;;
  v ← run_hook do_postevents;
  if py_eq (VBool false) v then mret Break else
  result ← do_work VNone;
  call_do_result result ;;
  v ← run_hook do_postwork;
  if py_eq (VBool false) v then mret Break else mret Continue.

Definition run `{Hooks} : nat → M RunOutcome := loop run_body.

End Worker.

(** * Vocabulary of the further statements *)

(** The trace entry of one invocation of the callback of [a]. *)
Definition obs_of (a : EventAction) : Obs :=
  ObsCall (ident a) (args a) (kwargs a).

Definition is_quit_call (a : EventAction) : bool :=
  match action a with
  | BoundQuit => true
  | Fn _ => false
  end.

(** What invoking a quiet callback does to the world. *)
Definition invoked (a : EventAction) (w : World) : World :=
  let w' := record (obs_of a) w in
  if is_quit_call a then set_to_quit true w' else w'.

(** The world after detection over [l], and after dispatch of [l], when
    every callback involved is quiet. *)
Definition detected (l : list EventAction) (w : World) : World :=
  foldl (λ w a, if bool_decide (event a ∈ signals w) && opt_automatic a
                then invoked a w else w) w l.

Definition dispatched (l : list EventAction) (w : World) : World :=
  foldl (λ w a, final (event_clear (event a) (invoked a w))) w l.

(** A user function that returns whatever it is given. *)
Definition always_returns (c : Callable) : Prop :=
  match c with
  | BoundQuit => False
  | Fn f => ∀ pos kw s, ∃ s' v, f pos kw s = (s', inl v)
  end.

(** How often the target was called, and [do_result]. *)
Fixpoint work_calls (tr : list Obs) : nat :=
  match tr with
  | [] => 0
  | ObsWork _ _ :: tr' => S (work_calls tr')
  | _ :: tr' => work_calls tr'
  end.

Fixpoint result_calls (tr : list Obs) : nat :=
  match tr with
  | [] => 0
  | ObsResult _ :: tr' => S (result_calls tr')
  | _ :: tr' => result_calls tr'
  end.

(** The registry invariant: the dict mirrors the list, and no identity
    occurs twice. *)
Definition registry_inv (w : World) : Prop :=
  registry_ok w ∧ NoDup (ident <$> actions w).

(** A veto of [do_command] and nothing else. *)
Definition command_veto_hooks : Hooks := {|
  do_command := hook_return (VBool false);
  do_postevents := hook_return (VBool true);
  do_postwork := hook_return (VBool true);
  do_result := λ _, hook_return VNone
|}.

(** A target that returns [42], on a worker with no action. *)
Definition forty_two : Callable := Fn (λ _ _ s, (s, inl (VInt 42))).

Definition forty_two_world : World :=
  mkWorld (Some forty_two) [VStr "x"] [("k", VInt 1)] false None None [] [] {[5]} [].

(** A callback that raises. *)
Definition failing : Callable :=
  Fn (λ _ _ s, (s, inr (UserError (VStr "boom")))).

Definition fail_actions : list EventAction :=
  [ mkEventAction 10 1 nop [] [] false;
    mkEventAction 20 2 failing [] [] false;
    mkEventAction 30 3 nop [] [] false ].

Definition fail_world : World :=
  mkWorld (Some nop) [] [] false None None fail_actions
          ((λ a, (a, event a)) <$> fail_actions) {[1; 2; 3]} [].

(** * Properties *)

(** ** [add_action] *)

Lemma action_in_elem (a : EventAction) (l : list EventAction) :
  a ∈ l → action_in a l = true.
Proof.
  intros Hin. unfold action_in. apply existsb_exists.
  exists a. split; [by apply list_elem_of_In | apply Nat.eqb_refl].
Qed.

(** C4: registering an action that is already registered raises, and the
    world it raises in is the world before the call: the action sequence,
    its length and the action-to-event mapping are what they were. *)
Theorem add_action_registered_raises (a : EventAction) (w : World) :
  a ∈ actions w →
  ∃ msg w',
    add_action a w = Raise (Exception msg) w' ∧ w' = w
    ∧ actions w' = actions w
    ∧ length (actions w') = length (actions w)
    ∧ actions_events w' = actions_events w.
Proof.
  intros Hin. unfold add_action. rewrite (action_in_elem _ _ Hin).
  eexists _, w. repeat split.
Qed.

Lemma add_action_registered_raises_witness :
  ∃ msg w',
    add_action ping ping_world = Raise (Exception msg) w' ∧ w' = ping_world
    ∧ actions w' = actions ping_world
    ∧ length (actions w') = length (actions ping_world)
    ∧ actions_events w' = actions_events ping_world.
Proof.
  apply (add_action_registered_raises ping ping_world).
  simpl. apply list_elem_of_here.
Defined.

(** ** [EventAction.is_set] *)

(** C5: [is_set] returns the flag of the bound event as it was polled.
    When the flag is set and the action is automatic, the callback has
    been invoked on the captured arguments by the time [is_set] returns,
    and whatever value the callback returned, [is_set] returns [True];
    otherwise nothing is invoked and nothing changes.  [is_set] fails only
    when that callback raises. *)
Theorem is_set_returns_flag (a : EventAction) (w : World) :
  let polled := bool_decide (event a ∈ signals w) in
  match is_set a w with
  | Ok b w' =>
      b = polled
      ∧ (if polled && opt_automatic a
         then ∃ v, call (action a) (args a) (kwargs a)
                     (record (ObsCall (ident a) (args a) (kwargs a)) w) = Ok v w'
                   ∧ trace w' = trace w ++ [ObsCall (ident a) (args a) (kwargs a)]
         else w' = w)
  | Raise e w' =>
      polled = true ∧ opt_automatic a = true
      ∧ invoke a w = Raise e w'
  end.
Proof.
  unfold is_set, event_is_set, invoke. unfold_M. simpl.
  destruct (bool_decide (event a ∈ signals w)) eqn:Hp, (opt_automatic a) eqn:Ha;
    simpl; try done.
  destruct (call _ _ _ _) as [v w'|e w'] eqn:Hc; [|done].
  split; [done|]. exists v. split; [done|].
  unfold call in Hc.
  destruct (action a) as [|f].
  - destruct (args a), (kwargs a); try done. by inversion Hc; subst.
  - destruct (f _ _ _) as [s [x|x]]; by inversion Hc; subst.
Qed.

(** ** [do_work] *)

Lemma do_work_truthy (item : PyVal) (w : World) :
  py_truthy item = true → do_work item w = call_target (item :: self_args w) w.
Proof. intros Ht. unfold do_work. by rewrite Ht. Qed.

Lemma do_work_falsy (item : PyVal) (w : World) :
  py_truthy item = false → do_work item w = call_target (self_args w) w.
Proof. intros Ht. unfold do_work. by rewrite Ht. Qed.

Lemma do_work_no_item (w : World) :
  do_work VNone w = call_target (self_args w) w.
Proof. reflexivity. Qed.

(** C8, at the item [0]: the item is supplied, yet the target is called
    on the fixed arguments alone, as if no item had been given; a truthy
    item such as [1] is prepended. *)
Theorem do_work_drops_falsy_item :
  do_work (VInt 0) echo_world
    = Ok (VTuple [VStr "Hello world!"])
         (record (ObsWork [VStr "Hello world!"] []) echo_world)
  ∧ do_work (VInt 0) echo_world = do_work VNone echo_world
  ∧ do_work (VInt 1) echo_world
    = Ok (VTuple [VInt 1; VStr "Hello world!"])
         (record (ObsWork [VInt 1; VStr "Hello world!"] []) echo_world).
Proof. repeat split. Qed.

(** ** The continuation checks *)

Lemma False_eq_iff (v : PyVal) :
  py_eq (VBool false) v = true ↔ v = VBool false ∨ v = VInt 0.
Proof.
  split.
  - destruct v as [|[]|z| | |]; simpl; try done; [by left|].
    intros Hz. right. f_equal. symmetry. by apply Z.eqb_eq.
  - by intros [-> | ->].
Qed.

Lemma run_hook_return (v : PyVal) (w : World) :
  run_hook (hook_return v) w = Ok v w.
Proof. by destruct w. Qed.

(** C10, as amended: each check is [False == value].  [None], [True], the
    empty string, the empty list and the empty tuple continue the loop;
    [False] and [0] stop it, and they are the only values that do.  A pass
    of the simplified loop that returns breaks exactly when [do_postevents]
    or [do_postwork] returned such a value, a pass of the command-aware
    loop exactly when one of the three hooks did.  [None] is what the
    unoverridden [do_command] returns; the unoverridden [do_postevents]
    and [do_postwork] return [True]. *)
Theorem continuation_check_is_False_eq (vc ve vw : PyVal) (w : World) :
  (py_eq (VBool false) VNone = false
   ∧ py_eq (VBool false) (VBool true) = false
   ∧ py_eq (VBool false) (VStr "") = false
   ∧ py_eq (VBool false) (VList []) = false
   ∧ py_eq (VBool false) (VTuple []) = false
   ∧ py_eq (VBool false) (VBool false) = true
   ∧ py_eq (VBool false) (VInt 0) = true)
  ∧ (∀ v, py_eq (VBool false) v = true ↔ v = VBool false ∨ v = VInt 0)
  ∧ match @run_body (const_hooks vc ve vw) w with
    | Ok f _ =>
        f = if py_eq (VBool false) ve || py_eq (VBool false) vw
            then Break else Continue
    | Raise _ _ => True
    end
  ∧ match @run_body_polling (const_hooks vc ve vw) w with
    | Ok f _ =>
        f = if py_eq (VBool false) vc || py_eq (VBool false) ve
               || py_eq (VBool false) vw
            then Break else Continue
    | Raise _ _ => True
    end
  ∧ (∀ s q, @do_command base_hooks s q = ((s, q), inl VNone))
  ∧ (∀ s q, @do_postevents base_hooks s q = ((s, q), inl (VBool true)))
  ∧ (∀ s q, @do_postwork base_hooks s q = ((s, q), inl (VBool true))).
Proof.
  split; [by repeat split|].
  split; [apply False_eq_iff|].
  split; [|split; [|done]].
  - unfold run_body, call_do_result. unfold_M. cbn [do_postevents do_postwork do_result const_hooks].
    destruct (check_events w) as [acts w1|]; [|done].
    destruct (process_events acts w1) as [r w2|]; [|done].
    rewrite run_hook_return.
    destruct (py_eq (VBool false) ve); [done|]. cbn [orb].
    destruct (do_work VNone w2) as [res w3|]; [|done].
    rewrite !run_hook_return.
    by destruct (py_eq (VBool false) vw).
  - unfold run_body_polling, call_do_result. unfold_M.
    cbn [do_command do_postevents do_postwork do_result const_hooks].
    destruct (check_events w) as [acts w1|]; [|done].
    rewrite run_hook_return.
    destruct (py_eq (VBool false) vc); [done|]. cbn [orb].
    destruct (process_events acts w1) as [r w2|]; [|done].
    rewrite run_hook_return.
    destruct (py_eq (VBool false) ve); [done|]. cbn [orb].
    destruct (do_work VNone w2) as [res w3|]; [|done].
    rewrite !run_hook_return.
    by destruct (py_eq (VBool false) vw).
Qed.

(** C10, as stated, at [do_postevents]: the method as [WorkerBase]
    defines it returns [True], not [None]. *)
Lemma default_postevents_is_not_None :
  ¬ (∀ s q, @do_postevents base_hooks s q = ((s, q), inl VNone)).
Proof. intros Hd. specialize (Hd ∅ false). discriminate Hd. Qed.

(** ** The two loops *)

Lemma run_body_polling_default `{H : Hooks} (w : World) :
  (∀ s q, do_command s q = ((s, q), inl VNone)) →
  run_body_polling w = run_body w.
Proof.
  intros Hc. unfold run_body_polling, run_body. unfold_M.
  destruct (check_events w) as [acts w1|]; [|done].
  unfold run_hook at 1. rewrite Hc. cbn [py_eq].
  by destruct w1.
Qed.

(** C7: with [do_command] as the base class leaves it (no effect, no
    [return]), a pass of the command-aware loop is a pass of the
    simplified loop, and so are the two loops for every bound on the
    number of passes: same trace, same world, same outcome. *)
Theorem run_polling_default_is_run `{H : Hooks} :
  (∀ s q, do_command s q = @do_command base_hooks s q) →
  (∀ w, run_body_polling w = run_body w)
  ∧ (∀ fuel w, run_polling fuel w = run fuel w).
Proof.
  intros Hc.
  assert (Hb : ∀ w, run_body_polling w = run_body w)
    by (intros w; by apply run_body_polling_default).
  split; [done|].
  unfold run_polling, run.
  induction fuel as [|n IH]; intros w; simpl; [done|].
  destruct (to_quit w); [done|]. unfold_M. rewrite Hb.
  destruct (run_body w) as [[] w'|]; [|done..]. apply IH.
Qed.

Lemma run_polling_default_is_run_witness :
  (∀ w, @run_body_polling base_hooks w = @run_body base_hooks w)
  ∧ (∀ fuel w, @run_polling base_hooks fuel w = @run base_hooks fuel w).
Proof. apply (@run_polling_default_is_run base_hooks). reflexivity. Defined.

(** ** What the steps of a pass leave alone *)

Lemma calls_from_is_call (L : list EventAction) (tr : list Obs) :
  calls_from L tr → Forall is_call tr.
Proof.
  intros Hc. eapply Forall_impl; [exact Hc|].
  by intros o (a & _ & ->).
Qed.

Lemma calls_from_mono (L L' : list EventAction) (tr : list Obs) :
  (∀ a, a ∈ L → a ∈ L') → calls_from L tr → calls_from L' tr.
Proof.
  intros Hsub Hc. eapply Forall_impl; [exact Hc|].
  intros o (a & Ha & ->).
  exists a. split; [by apply Hsub|done].
Qed.

Lemma calls_from_other (i : nat) (L : list EventAction) (tr : list Obs) :
  i ∉ ident <$> L → calls_from L tr → calls_of i tr = 0.
Proof.
  intros Hi. induction 1 as [|o tr (a & Ha & ->) _ IH]; [done|].
  simpl. rewrite IH.
  destruct (Nat.eqb_spec i (ident a)) as [->|]; [|done].
  destruct Hi. apply list_elem_of_fmap. by exists a.
Qed.

Lemma steps_to_refl (L : list EventAction) (w : World) : steps_to L w w.
Proof. split; try done. exists []. split; [by rewrite app_nil_r|constructor]. Qed.

Lemma steps_to_trans (L : list EventAction) (w1 w2 w3 : World) :
  steps_to L w1 w2 → steps_to L w2 w3 → steps_to L w1 w3.
Proof.
  intros [] []. split; try congruence; [tauto|].
  destruct st_trace0 as (l1 & E1 & F1), st_trace1 as (l2 & E2 & F2).
  exists (l1 ++ l2). split.
  - by rewrite E2, E1, app_assoc.
  - by apply Forall_app.
Qed.

Lemma steps_to_mono (L L' : list EventAction) (w w' : World) :
  (∀ a, a ∈ L → a ∈ L') → steps_to L w w' → steps_to L' w w'.
Proof.
  intros Hsub []. split; try done.
  destruct st_trace0 as (tr & E & F). exists tr.
  split; [done|]. by eapply calls_from_mono.
Qed.

Lemma call_steps (c : Callable) (pos : list PyVal) (kw : Kwargs) (w : World) :
  steps_to [] w (final (call c pos kw w)).
Proof.
  unfold call. destruct c as [|f].
  - destruct pos, kw; simpl; try apply steps_to_refl.
    split; try done. exists []. split; [by rewrite app_nil_r|constructor].
  - destruct (f pos kw (signals w)) as [s [v|e]]; simpl;
      (split; try done; exists []; split; [by rewrite app_nil_r|constructor]).
Qed.

Lemma invoke_steps (a : EventAction) (w : World) :
  steps_to [a] w (final (invoke a w)).
Proof.
  unfold invoke.
  eapply steps_to_trans;
    [|eapply steps_to_mono; [|apply call_steps]; by intros ? ?%elem_of_nil].
  split; try done. eexists [_]. split; [done|].
  constructor; [|constructor]. exists a. split; [apply list_elem_of_here|done].
Qed.

Lemma is_set_steps (a : EventAction) (w : World) :
  steps_to [a] w (final (is_set a w)).
Proof.
  unfold is_set, event_is_set. unfold_M.
  destruct (bool_decide _ && opt_automatic a); [|apply steps_to_refl].
  pose proof (invoke_steps a w) as Hs.
  by destruct (invoke a w).
Qed.

Lemma check_events_loop_steps (l acc : list EventAction) (w : World) :
  steps_to l w (final (check_events_loop l acc w)).
Proof.
  revert acc w. induction l as [|a l IH]; intros acc w; simpl.
  - apply steps_to_refl.
  - unfold_M. pose proof (is_set_steps a w) as Hs.
    assert (Ha : ∀ x, x ∈ [a] → x ∈ a :: l).
    { intros x ->%list_elem_of_singleton. apply list_elem_of_here. }
    destruct (is_set a w) as [b w1|]; [|by eapply steps_to_mono].
    eapply steps_to_trans; [by eapply steps_to_mono|].
    eapply steps_to_mono; [|apply IH].
    intros x Hx. by apply list_elem_of_further.
Qed.

Lemma event_clear_steps (L : list EventAction) (e : nat) (w : World) :
  steps_to L w (final (event_clear e w)).
Proof. split; try done. exists []. split; [by rewrite app_nil_r|constructor]. Qed.

Lemma process_events_steps (l : list EventAction) (w : World) :
  steps_to l w (final (process_events l w)).
Proof.
  revert w. induction l as [|a l IH]; intros w; simpl.
  - apply steps_to_refl.
  - unfold_M. unfold call_action.
    pose proof (invoke_steps a w) as Hs.
    assert (Ha : ∀ x, x ∈ [a] → x ∈ a :: l).
    { intros x ->%list_elem_of_singleton. apply list_elem_of_here. }
    destruct (invoke a w) as [v w1|]; [|by eapply steps_to_mono].
    simpl in Hs.
    eapply steps_to_trans; [by eapply steps_to_mono|].
    eapply steps_to_trans; [apply (event_clear_steps _ (event a))|].
    eapply steps_to_mono; [|apply IH].
    intros x Hx. by apply list_elem_of_further.
Qed.

(** What detection returns: the accumulator, then some of the actions
    it went through. *)
Lemma check_events_loop_acc (l acc r : list EventAction) (w w' : World) :
  check_events_loop l acc w = Ok r w' →
  ∃ r', r = acc ++ r' ∧ ∀ a, a ∈ r' → a ∈ l.
Proof.
  revert acc w. induction l as [|a l IH]; intros acc w; simpl; unfold_M.
  - intros [= <- <-]. exists []. split; [by rewrite app_nil_r|].
    by intros a ?%elem_of_nil.
  - destruct (is_set a w) as [b w1|]; [|done].
    intros Hl. apply IH in Hl as (r' & -> & Hr').
    destruct b.
    + exists (a :: r'). split; [by rewrite <- app_assoc|].
      intros x [->|Hx]%elem_of_cons; [apply list_elem_of_here|].
      by apply list_elem_of_further, Hr'.
    + exists r'. split; [done|].
      intros x Hx. by apply list_elem_of_further, Hr'.
Qed.

Lemma detect_dispatch_steps (w : World) :
  steps_to (actions w) w (final (detect_dispatch w)).
Proof.
  unfold detect_dispatch, check_events. unfold_M.
  pose proof (check_events_loop_steps (actions w) [] w) as Hs.
  destruct (check_events_loop _ _ w) as [acts w1|] eqn:Hc; [|done].
  apply check_events_loop_acc in Hc as (r' & -> & Hr').
  eapply steps_to_trans; [exact Hs|].
  eapply steps_to_mono; [|apply process_events_steps]. exact Hr'.
Qed.

(** ** A vetoing [do_postevents] *)

(** C6: when [do_postevents] returns [False] whatever it is given, a
    running loop makes one pass of detection and dispatch, calls the hook
    and stops; the pass adds nothing but callback invocations to the
    trace, so neither the target nor [do_result] is invoked. *)
Theorem postevents_veto_skips_work `{H : Hooks} (w : World) (n : nat) :
  (∀ s q, (do_postevents s q).2 = inl (VBool false)) →
  to_quit w = false →
  match detect_dispatch w with
  | Ok _ w2 =>
      ∃ w3, run (S n) w = Ok Stopped w3 ∧ trace w3 = trace w2
  | Raise e w2 => run (S n) w = Raise e w2
  end
  ∧ ∃ l, trace (final (run (S n) w)) = trace w ++ l ∧ Forall is_call l.
Proof.
  intros Hv Hq.
  pose proof (detect_dispatch_steps w) as Hs.
  assert (Htr : ∃ l, trace (final (detect_dispatch w)) = trace w ++ l
                     ∧ Forall is_call l).
  { destruct Hs as [_ _ _ _ _ _ (tr & E & F)]. exists tr.
    split; [done|]. by eapply calls_from_is_call. }
  clear Hs. unfold run, run_body, detect_dispatch in *. simpl. rewrite Hq.
  unfold_M.
  destruct (check_events w) as [acts w1|e w1]; [|by split].
  destruct (process_events acts w1) as [r w2|e w2]; [|by split].
  unfold run_hook. specialize (Hv (signals w2) (to_quit w2)).
  destruct (do_postevents (signals w2) (to_quit w2)) as [[s q] o].
  simpl in Hv. subst o. cbn [py_eq Z.b2z Z.eqb].
  split; [by eexists|]. simpl. apply Htr.
Qed.

Lemma postevents_veto_skips_work_witness :
  match detect_dispatch veto_world with
  | Ok _ w2 =>
      ∃ w3, @run veto_hooks 1 veto_world = Ok Stopped w3 ∧ trace w3 = trace w2
  | Raise e w2 => @run veto_hooks 1 veto_world = Raise e w2
  end
  ∧ ∃ l, trace (final (@run veto_hooks 1 veto_world)) = trace veto_world ++ l
         ∧ Forall is_call l.
Proof.
  apply (@postevents_veto_skips_work veto_hooks veto_world 0); reflexivity.
Defined.

Example veto_world_trace :
  trace (final (@run veto_hooks 5 veto_world)) = [ObsCall 7 [] []].
Proof. vm_compute. reflexivity. Qed.

(** ** The quit event *)

Lemma add_action_appends (a : EventAction) (w w' : World) (r : PyVal) :
  add_action a w = Ok r w' →
  actions w' = actions w ++ [a] ∧ to_quit w' = to_quit w
  ∧ signals w' = signals w ∧ trace w' = trace w.
Proof.
  unfold add_action. destruct (action_in a (actions w)); [done|].
  intros [= <- <-]. done.
Qed.

Lemma action_in_false (a : EventAction) (l : list EventAction) :
  action_in a l = false → ident a ∉ ident <$> l.
Proof.
  intros Hin (b & Hab & Hb)%list_elem_of_fmap.
  assert (Ht : action_in a l = true); [|congruence].
  apply existsb_exists. exists b.
  split; [by apply list_elem_of_In|]. rewrite Hab. apply Nat.eqb_refl.
Qed.

Lemma add_actions_extends (l : list EventAction) (w w' : World) (r : PyVal) :
  add_actions l w = Ok r w' →
  NoDup (ident <$> actions w) →
  ∃ l', actions w' = actions w ++ l' ∧ NoDup (ident <$> actions w').
Proof.
  revert w. induction l as [|a l IH]; intros w; simpl; unfold_M.
  - intros [= <- <-] Hnd. exists []. by rewrite app_nil_r.
  - destruct (add_action a w) as [v w1|] eqn:Ha; [|done].
    intros Hl Hnd.
    assert (Hfresh : ident a ∉ ident <$> actions w).
    { apply action_in_false. unfold add_action in Ha.
      by destruct (action_in a (actions w)). }
    apply add_action_appends in Ha as (Ha & _).
    apply IH in Hl as (l' & Hl' & Hnd').
    + exists (a :: l'). split; [|done]. by rewrite Hl', Ha, <- app_assoc.
    + rewrite Ha, fmap_app. apply NoDup_app. split; [done|].
      split; [|apply NoDup_singleton].
      intros i Hi ->%list_elem_of_singleton. done.
Qed.

Lemma init_registers_quit tgt pos kw q ec qid s (r : PyVal) (w : World) :
  init tgt pos kw (Some q) ec qid s = Ok r w →
  actions w = [quit_action qid q] ∧ to_quit w = false.
Proof. unfold init, add_action. simpl. by intros [= <- <-]. Qed.

Lemma call_trace (c : Callable) (pos : list PyVal) (kw : Kwargs) (w : World) :
  trace (final (call c pos kw w)) = trace w.
Proof.
  unfold call. destruct c as [|f].
  - by destruct pos, kw.
  - by destruct (f pos kw (signals w)) as [s [v|e]].
Qed.

Lemma loop_quitting (body : M Flow) (fuel : nat) (w : World) :
  to_quit w = true → loop body fuel w = Ok Stopped w.
Proof. intros Hq. destruct fuel; simpl; by rewrite Hq. Qed.

(** C3: a worker built with a quit event, in any later state of its loop
    in which it is running and the quit event is set.  The loop makes
    exactly one more pass and is then stopped by the [while] test.  When
    that pass returns, it was not cut short: detection invoked callbacks
    of other actions at most, dispatch invoked [_quit] first and only
    once, and the pass went on to call the target and [do_result];
    [to_quit] is set at its end. *)
Theorem quit_event_stops_at_pass_end
    tgt pos kw q ec qid s0 (extra : list EventAction)
    (r0 r1 : PyVal) (w0 w1 w : World) (n : nat) :
  init tgt pos kw (Some q) ec qid s0 = Ok r0 w0 →
  add_actions extra w0 = Ok r1 w1 →
  actions w = actions w1 →
  to_quit w = false →
  q ∈ signals w →
  @run base_hooks (S n) w
    = match @run_body base_hooks w with
      | Ok _ w' => Ok Stopped w'
      | Raise e w' => Raise e w'
      end
  ∧ ∀ f w', @run_body base_hooks w = Ok f w' →
      f = Continue ∧ to_quit w' = true
      ∧ ∃ l1 l2 res,
          (Forall is_call l1 ∧ calls_of qid l1 = 0)
          ∧ (Forall is_call l2 ∧ calls_of qid l2 = 0)
          ∧ trace w' = trace w ++ l1 ++ ObsCall qid [] [] :: l2
                         ++ [ObsWork (self_args w) (self_kwargs w); ObsResult res].
Proof.
  intros Hi Ha Hacts Hq Hset.
  apply init_registers_quit in Hi as (Hi & _).
  apply add_actions_extends in Ha as (rest & Ha & Hnd);
    [|rewrite Hi; apply NoDup_singleton].
  rewrite Hi in Ha. rewrite Ha in Hacts, Hnd. clear Hi Ha.
  simpl in Hacts, Hnd. apply NoDup_cons in Hnd as [Hfresh _].
  assert (Hbody : ∀ f w', @run_body base_hooks w = Ok f w' →
      f = Continue ∧ to_quit w' = true
      ∧ ∃ l1 l2 res,
          (Forall is_call l1 ∧ calls_of qid l1 = 0)
          ∧ (Forall is_call l2 ∧ calls_of qid l2 = 0)
          ∧ trace w' = trace w ++ l1 ++ ObsCall qid [] [] :: l2
                         ++ [ObsWork (self_args w) (self_kwargs w); ObsResult res]).
  { intros f w'. unfold run_body, check_events, call_do_result.
    unfold_M. rewrite Hacts.
    cbn [check_events_loop]. unfold_M.
    assert (His : is_set (quit_action qid q) w = Ok true w).
    { unfold is_set, event_is_set. unfold_M. simpl.
      by rewrite bool_decide_eq_true_2. }
    rewrite His. cbn [app].
    pose proof (check_events_loop_steps rest [quit_action qid q] w) as Hs1.
    destruct (check_events_loop rest _ w) as [acts w1'|] eqn:Hc; [|done].
    apply check_events_loop_acc in Hc as (tl & -> & Htl). simpl in Hs1.
    cbn [app process_events]. unfold_M.
    unfold call_action at 1, invoke at 1, call at 1.
    cbn [quit_action action args kwargs ident event].
    unfold _quit, event_clear.
    set (wq := set_signals _ _).
    pose proof (steps_to_mono _ _ _ _ Htl (process_events_steps tl wq)) as Hs2.
    destruct (process_events tl wq) as [v w2|]; [|done]. simpl in Hs2.
    cbn [do_postevents do_postwork do_result base_hooks].
    rewrite run_hook_return. cbn [py_eq Z.b2z Z.eqb].
    unfold do_work, call_target. cbn [py_truthy].
    destruct (target w2) as [c|]; [|done].
    pose proof (call_trace c (self_args w2) (self_kwargs w2)
                  (record (ObsWork (self_args w2) (self_kwargs w2)) w2)) as Ht.
    pose proof (call_steps c (self_args w2) (self_kwargs w2)
                  (record (ObsWork (self_args w2) (self_kwargs w2)) w2)) as Hs3.
    destruct (call c _ _ _) as [res w3|]; [|done]. simpl in Ht, Hs3.
    rewrite !run_hook_return. intros [= <- <-].
    split; [done|].
    destruct Hs1 as [? ? ? ? ? ? (l1 & E1 & F1)].
    destruct Hs2 as [? Ea Ek ? ? Hq2 (l2 & E2 & F2)].
    destruct Hs3 as [? ? ? ? ? Hq3 _].
    split; [apply Hq3, Hq2; done|].
    exists l1, l2, res.
    split; [split; [by eapply calls_from_is_call|by eapply calls_from_other]|].
    split; [split; [by eapply calls_from_is_call|by eapply calls_from_other]|].
    simpl. rewrite Ht. simpl. rewrite E2. subst wq. simpl. rewrite E1.
    rewrite Ea, Ek. simpl. rewrite st_args0, st_kwargs0.
    by rewrite <- !app_assoc. }
  split; [|exact Hbody].
  unfold run. simpl. rewrite Hq. unfold_M.
  destruct (@run_body base_hooks w) as [f w'|] eqn:Hb; [|done].
  destruct (Hbody f w' eq_refl) as (-> & Hq' & _).
  by apply loop_quitting.
Qed.

(** ** The detection pass *)

Lemma signal_all_eq (order : list nat) (w : World) :
  signal_all order w = set_signals (list_to_set order ∪ signals w) w.
Proof.
  unfold signal_all. revert w.
  induction order as [|e order IH]; intros w; simpl.
  - destruct w. unfold set_signals. simpl. f_equal.
    by rewrite (left_id_L ∅ (∪)).
  - rewrite IH. unfold set_signals. simpl. f_equal.
    by rewrite (assoc_L (∪)), (comm_L (∪) (list_to_set order)).
Qed.

Lemma invoke_quiet (a : EventAction) (w : World) :
  quiet a →
  ∃ v w', invoke a w = Ok v w' ∧ signals w' = signals w
          ∧ actions w' = actions w
          ∧ trace w' = trace w ++ [ObsCall (ident a) (args a) (kwargs a)].
Proof.
  unfold quiet, invoke, call. destruct (action a) as [|f].
  - intros [-> ->]. by eexists _, _.
  - intros Hf. simpl. destruct (Hf (signals w)) as [v ->].
    by eexists _, _.
Qed.

Lemma is_set_quiet (a : EventAction) (w : World) :
  (opt_automatic a = true → quiet a) →
  ∃ w', is_set a w = Ok (bool_decide (event a ∈ signals w)) w'
        ∧ signals w' = signals w.
Proof.
  intros Hq. unfold is_set, event_is_set. unfold_M.
  destruct (bool_decide _) eqn:Hp, (opt_automatic a) eqn:Ha; simpl;
    try by eexists.
  destruct (invoke_quiet a w (Hq eq_refl)) as (v & w' & -> & Hs & _).
  by eexists.
Qed.

Lemma check_events_loop_quiet (l acc : list EventAction) (w : World) :
  Forall (λ a, opt_automatic a = true → quiet a) l →
  ∃ w', check_events_loop l acc w
          = Ok (acc ++ filter (λ a, event a ∈ signals w) l) w'
        ∧ signals w' = signals w.
Proof.
  intros Hl. revert acc w.
  induction Hl as [|a l Ha Hl IH]; intros acc w; simpl; unfold_M.
  - exists w. by rewrite app_nil_r.
  - destruct (is_set_quiet a w Ha) as (w1 & -> & Hs1).
    destruct (IH (if bool_decide (event a ∈ signals w)
                  then acc ++ [a] else acc) w1) as (w2 & -> & Hs2).
    exists w2. split; [|congruence]. f_equal. rewrite Hs1.
    rewrite filter_cons. case_bool_decide as Hd.
    + rewrite decide_True by done. by rewrite <- app_assoc.
    + by rewrite decide_False by done.
Qed.

Lemma NoDup_fmap_filter {A B} (f : A → B) (P : A → Prop)
    `{!∀ x, Decision (P x)} (l : list A) :
  NoDup (f <$> l) → NoDup (f <$> filter P l).
Proof.
  intros Hnd. eapply sublist_NoDup; [exact Hnd|].
  apply fmap_sublist, sublist_filter.
Qed.

Lemma filter_ext_elem {A} (P Q : A → Prop)
    `{!∀ x, Decision (P x), !∀ x, Decision (Q x)} (l : list A) :
  (∀ x, x ∈ l → P x ↔ Q x) → filter P l = filter Q l.
Proof.
  induction l as [|a l IH]; intros Hpq; [done|].
  rewrite !filter_cons.
  rewrite IH by (intros x Hx; by apply Hpq, list_elem_of_further).
  pose proof (Hpq a (list_elem_of_here _ _)) as Ha.
  destruct (decide (P a)).
  - by rewrite decide_True by tauto.
  - by rewrite decide_False by tauto.
Qed.

(** C1, as amended: the registered actions have pairwise distinct events,
    none of them set; the events of [order], all registered, are then set
    one after the other; every automatic action has a quiet callback.
    [check_events] returns the actions whose event is in [order], in
    registration order, one per event of [order]; and setting the same
    events in another order leads to the same world, hence to the same
    answer. *)
Theorem check_events_returns_signaled (w0 : World) (order : list nat) :
  (∀ a, a ∈ actions w0 → opt_automatic a = true → quiet a) →
  (∀ a, a ∈ actions w0 → event a ∉ signals w0) →
  NoDup (event <$> actions w0) →
  NoDup order →
  (∀ e, e ∈ order → e ∈ event <$> actions w0) →
  (∃ w', check_events (signal_all order w0)
           = Ok (filter (λ a, event a ∈ order) (actions w0)) w')
  ∧ event <$> filter (λ a, event a ∈ order) (actions w0) ≡ₚ order
  ∧ ∀ order', order' ≡ₚ order → signal_all order' w0 = signal_all order w0.
Proof.
  intros Hquiet Hclear Hnd Hord Hsub. split; [|split].
  - rewrite signal_all_eq. unfold check_events. simpl.
    destruct (check_events_loop_quiet (actions w0) []
                (set_signals (list_to_set order ∪ signals w0) w0))
      as (w' & Hc & _).
    { apply Forall_forall. intros a Ha. by apply Hquiet. }
    exists w'. rewrite Hc. simpl. f_equal.
    apply filter_ext_elem. intros a Ha.
    rewrite elem_of_union, elem_of_list_to_set.
    specialize (Hclear a Ha). tauto.
  - apply NoDup_Permutation; [by apply NoDup_fmap_filter|done|].
    intros e. rewrite list_elem_of_fmap. split.
    + intros (a & -> & Ha). by apply list_elem_of_filter in Ha as [? _].
    + intros He. pose proof (Hsub e He) as Hreg.
      apply list_elem_of_fmap in Hreg as (a & -> & Ha).
      exists a. split; [done|]. by apply list_elem_of_filter.
  - intros order' Hp. rewrite !signal_all_eq. by rewrite Hp.
Qed.

Lemma check_events_returns_signaled_witness :
  (∃ w', check_events (signal_all [3; 1] three_world)
           = Ok (filter (λ a, event a ∈ [3; 1]) (actions three_world)) w')
  ∧ event <$> filter (λ a, event a ∈ [3; 1]) (actions three_world) ≡ₚ [3; 1]
  ∧ ∀ order', order' ≡ₚ [3; 1] →
      signal_all order' three_world = signal_all [3; 1] three_world.
Proof.
  apply (check_events_returns_signaled three_world [3; 1]).
  - intros a Ha _. simpl in Ha. unfold three_actions in Ha.
    repeat (apply elem_of_cons in Ha as [-> | Ha]);
      [| | |by apply elem_of_nil in Ha]; intros s; by exists VNone.
  - intros a _. simpl. apply not_elem_of_empty.
  - apply (bool_decide_unpack _). reflexivity.
  - apply (bool_decide_unpack _). reflexivity.
  - intros e He. apply (bool_decide_unpack _).
    repeat (apply elem_of_cons in He as [-> | He]);
      [| |by apply elem_of_nil in He]; reflexivity.
Defined.

Example three_world_detects :
  ident <$> (match check_events (signal_all [3; 1] three_world) with
             | Ok r _ => r
             | Raise _ _ => []
             end) = [10; 30].
Proof. vm_compute. reflexivity. Qed.

(** C1, as stated, at [relay_world] with only event [1] set: detection
    also returns the action on event [2]. *)
Lemma check_events_relay_counterexample :
  ¬ (∀ (w0 : World) (order : list nat),
       (∀ a, a ∈ actions w0 → event a ∉ signals w0) →
       NoDup (event <$> actions w0) →
       NoDup order →
       (∀ e, e ∈ order → e ∈ event <$> actions w0) →
       ∃ w', check_events (signal_all order w0)
               = Ok (filter (λ a, event a ∈ order) (actions w0)) w').
Proof.
  intros Hclaim.
  destruct (Hclaim relay_world [1]) as [w' Hw'].
  - intros a _. simpl. apply not_elem_of_empty.
  - apply (bool_decide_unpack _). reflexivity.
  - apply (bool_decide_unpack _). reflexivity.
  - intros e He. apply list_elem_of_singleton in He as ->.
    apply (bool_decide_unpack _). reflexivity.
  - assert (Hlen : length (match check_events (signal_all [1] relay_world) with
                           | Ok r _ => r
                           | Raise _ _ => []
                           end) = 2) by (vm_compute; reflexivity).
    rewrite Hw' in Hlen. vm_compute in Hlen. discriminate Hlen.
Qed.

Lemma quit_event_stops_at_pass_end_witness :
  @run base_hooks 1 pretty_quitting
    = match @run_body base_hooks pretty_quitting with
      | Ok _ w' => Ok Stopped w'
      | Raise e w' => Raise e w'
      end
  ∧ ∀ f w', @run_body base_hooks pretty_quitting = Ok f w' →
      f = Continue ∧ to_quit w' = true
      ∧ ∃ l1 l2 res,
          (Forall is_call l1 ∧ calls_of 100 l1 = 0)
          ∧ (Forall is_call l2 ∧ calls_of 100 l2 = 0)
          ∧ trace w' = trace pretty_quitting ++ l1 ++ ObsCall 100 [] [] :: l2
                         ++ [ObsWork (self_args pretty_quitting)
                                     (self_kwargs pretty_quitting);
                             ObsResult res].
Proof.
  apply (quit_event_stops_at_pass_end (Some echo) [VStr "Hello world!"] []
           1 None 100 ∅ [happened] VNone VNone pretty_init pretty_built
           pretty_quitting 0).
  - reflexivity.
  - reflexivity.
  - reflexivity.
  - reflexivity.
  - apply (bool_decide_unpack _). reflexivity.
Defined.

Example pretty_quitting_trace :
  trace (final (@run base_hooks 5 pretty_quitting))
  = [ObsCall 100 [] []; ObsCall 200 [VStr "bla"] [];
     ObsWork [VStr "Hello world!"] [];
     ObsResult (VTuple [VStr "Hello world!"])].
Proof. vm_compute. reflexivity. Qed.

(** ** Automatic actions *)

Lemma calls_of_app (i : nat) (tr1 tr2 : list Obs) :
  calls_of i (tr1 ++ tr2) = calls_of i tr1 + calls_of i tr2.
Proof.
  induction tr1 as [|o tr1 IH]; [done|].
  destruct o; simpl; rewrite IH; lia.
Qed.

Lemma is_set_unset (a : EventAction) (w : World) :
  event a ∉ signals w → is_set a w = Ok false w.
Proof.
  intros Hn. unfold is_set, event_is_set. unfold_M.
  by rewrite bool_decide_eq_false_2.
Qed.

Lemma poll_unset (k : nat) (a : EventAction) (w : World) :
  event a ∉ signals w → poll k a w = Ok VNone w.
Proof.
  intros Hn. induction k as [|k IH]; [done|].
  simpl. unfold_M. by rewrite is_set_unset.
Qed.

(** C2, as amended: for an automatic action with a quiet callback, each
    poll that finds the event set invokes the callback once, so [k] polls
    invoke it [k] times; polls that find the event unset invoke nothing;
    and dispatching the action leaves its event cleared, after which
    polls invoke nothing until the event is set again. *)
Theorem automatic_fires_on_each_poll (a : EventAction) (w : World) (k : nat) :
  opt_automatic a = true →
  quiet a →
  (event a ∈ signals w →
     ∃ w', poll k a w = Ok VNone w' ∧ signals w' = signals w
           ∧ calls_of (ident a) (trace w') = calls_of (ident a) (trace w) + k)
  ∧ (event a ∉ signals w → poll k a w = Ok VNone w)
  ∧ (∀ r w', process_events [a] w = Ok r w' →
       (event a ∉ signals w') ∧ poll k a w' = Ok VNone w').
Proof.
  intros Ha Hq. split; [|split].
  - revert w. induction k as [|k IH]; intros w Hset; simpl.
    + exists w. by rewrite Nat.add_0_r.
    + unfold_M. unfold is_set, event_is_set. unfold_M.
      rewrite bool_decide_eq_true_2 by done. rewrite Ha. simpl.
      destruct (invoke_quiet a w Hq) as (v & w1 & -> & Hs & _ & Ht).
      destruct (IH w1) as (w2 & -> & Hs2 & Hc); [by rewrite Hs|].
      exists w2. split; [done|]. split; [congruence|].
      rewrite Hc, Ht, calls_of_app. simpl. rewrite Nat.eqb_refl. lia.
  - apply poll_unset.
  - intros r w'. simpl. unfold_M. unfold call_action.
    destruct (invoke a w) as [v w1|]; [|done].
    unfold event_clear. intros [= <- <-].
    assert (Hn : event a ∉ signals w1 ∖ {[event a]}).
    { apply not_elem_of_difference. right. by apply elem_of_singleton. }
    split; [done|]. by apply poll_unset.
Qed.

Lemma automatic_fires_on_each_poll_witness :
  (2 ∈ signals auto_signaled →
     ∃ w', poll 3 auto_ping auto_signaled = Ok VNone w'
           ∧ signals w' = signals auto_signaled
           ∧ calls_of 20 (trace w') = calls_of 20 (trace auto_signaled) + 3)
  ∧ (2 ∉ signals auto_signaled → poll 3 auto_ping auto_signaled = Ok VNone auto_signaled)
  ∧ (∀ r w', process_events [auto_ping] auto_signaled = Ok r w' →
       (2 ∉ signals w') ∧ poll 3 auto_ping w' = Ok VNone w').
Proof.
  apply (automatic_fires_on_each_poll auto_ping auto_signaled 3).
  - reflexivity.
  - intros s. by exists VNone.
Defined.

(** C2, as stated, at [auto_ping]: its event is set once, and two polls
    invoke the callback twice; one pass of the loop invokes it twice as
    well, once in detection and once in dispatch. *)
Lemma automatic_fires_twice_counterexample :
  ¬ (∀ (a : EventAction) (w : World) (k : nat),
       opt_automatic a = true → quiet a → event a ∉ signals w → 1 ≤ k →
       calls_of (ident a) (trace (final (poll k a (final (event_set (event a) w)))))
       = calls_of (ident a) (trace w) + 1)
  ∧ calls_of 20 (trace (final (poll 2 auto_ping auto_signaled))) = 2
  ∧ calls_of 20 (trace (final (@run_body base_hooks auto_signaled))) = 2.
Proof.
  split; [|split; vm_compute; reflexivity].
  intros Hclaim.
  specialize (Hclaim auto_ping auto_world 2).
  assert (Hq : quiet auto_ping) by (intros s; by exists VNone).
  specialize (Hclaim eq_refl Hq).
  assert (Hn : event auto_ping ∉ signals auto_world) by apply not_elem_of_empty.
  specialize (Hclaim Hn).
  assert (Hk : 1 ≤ 2) by lia.
  specialize (Hclaim Hk). vm_compute in Hclaim. discriminate Hclaim.
Qed.

(** ** [action_by_event] *)

Lemma dict_setitem_fresh (a : EventAction) (v : nat) (l : list EventAction) :
  action_in a l = false →
  dict_setitem a v ((λ a, (a, event a)) <$> l)
  = ((λ a, (a, event a)) <$> l) ++ [(a, v)].
Proof.
  induction l as [|b l IH]; [done|].
  intros Hin. apply orb_false_iff in Hin as [Hb Hl].
  rewrite fmap_cons. cbn [dict_setitem]. rewrite Hb, IH by done.
  done.
Qed.

Lemma add_action_registry_ok (a : EventAction) (w w' : World) (r : PyVal) :
  registry_ok w → add_action a w = Ok r w' → registry_ok w'.
Proof.
  unfold registry_ok, add_action. intros Hok.
  destruct (action_in a (actions w)) eqn:Hin; [done|].
  intros [= <- <-]. simpl. rewrite Hok, dict_setitem_fresh by done.
  by rewrite fmap_app.
Qed.

Lemma first_bound_None (e : nat) (items : list (EventAction * nat)) :
  first_bound e items = None ↔ ∀ a ev, (a, ev) ∈ items → ev ≠ e.
Proof.
  induction items as [|[b ev'] items IH]; simpl.
  - split; [|done]. intros _ a ev Hin. by apply elem_of_nil in Hin.
  - destruct (Nat.eqb_spec ev' e) as [->|Hne].
    + split; [done|]. intros Hall.
      by destruct (Hall b e (list_elem_of_here _ _)).
    + rewrite IH. split.
      * intros Hall a ev [[= -> ->]|Hin]%elem_of_cons; [done|by eapply Hall].
      * intros Hall a ev Hin. eapply Hall. by apply list_elem_of_further.
Qed.

Lemma first_bound_Some (e : nat) (items : list (EventAction * nat))
    (a : EventAction) :
  first_bound e items = Some a → (a, e) ∈ items.
Proof.
  induction items as [|[b ev'] items IH]; simpl; [done|].
  destruct (Nat.eqb_spec ev' e) as [->|Hne].
  - intros [= ->]. apply list_elem_of_here.
  - intros Hf. by apply list_elem_of_further, IH.
Qed.

(** C9, as amended: the scan runs over the items of the dict in the
    order the dict yields them.  When no registered action is bound to
    the event the answer is [None]; when some are, the answer is one of
    them, and it is the one bound to the event when there is only one. *)
Theorem action_by_event_finds_a_match
    (iteritems : list (EventAction * nat) → list (EventAction * nat))
    (e : nat) (w : World) :
  iteritems (actions_events w) ≡ₚ actions_events w →
  registry_ok w →
  ((∀ a, a ∈ actions w → event a ≠ e) → action_by_event iteritems e w = None)
  ∧ ((∃ a, a ∈ actions w ∧ event a = e) →
       ∃ a, action_by_event iteritems e w = Some a
            ∧ a ∈ actions w ∧ event a = e)
  ∧ (∀ a, a ∈ actions w → event a = e →
       (∀ b, b ∈ actions w → event b = e → b = a) →
       action_by_event iteritems e w = Some a).
Proof.
  intros Hperm Hok. unfold action_by_event.
  assert (Hmem : ∀ a ev, (a, ev) ∈ iteritems (actions_events w)
                         ↔ a ∈ actions w ∧ ev = event a).
  { intros a ev. rewrite Hperm, Hok, list_elem_of_fmap. split.
    - by intros (b & [= -> ->] & Hb).
    - intros [Ha ->]. by exists a. }
  assert (Hsome : (∃ a, a ∈ actions w ∧ event a = e) →
       ∃ a, first_bound e (iteritems (actions_events w)) = Some a
            ∧ a ∈ actions w ∧ event a = e).
  { intros (a & Ha & He).
    destruct (first_bound e (iteritems (actions_events w))) as [b|] eqn:Hf.
    - exists b. split; [done|].
      apply first_bound_Some, Hmem in Hf as [Hb ->]. done.
    - exfalso. eapply first_bound_None; [exact Hf| |exact He].
      apply Hmem. split; [exact Ha|done]. }
  split; [|split; [exact Hsome|]].
  - intros Hnone. apply first_bound_None. intros a ev [Ha ->]%Hmem.
    by apply Hnone.
  - intros a Ha He Huniq.
    destruct Hsome as (b & -> & Hb & Hbe); [by exists a|].
    f_equal. by apply Huniq.
Qed.

Lemma slot_insert_perm (x : EventAction * nat) (l : list (EventAction * nat)) :
  slot_insert x l ≡ₚ x :: l.
Proof.
  induction l as [|y l IH]; [done|]. simpl.
  destruct (slot x.1 <=? slot y.1); [done|].
  rewrite IH. apply perm_swap.
Qed.

Lemma slot_order_perm (d : list (EventAction * nat)) : slot_order d ≡ₚ d.
Proof.
  induction d as [|x d IH]; [done|].
  unfold slot_order in *. simpl. by rewrite slot_insert_perm, IH.
Qed.

Lemma sevens_world_ok : registry_ok sevens_world.
Proof. reflexivity. Qed.

Lemma action_by_event_finds_a_match_witness :
  ((∀ a, a ∈ actions sevens_world → event a ≠ 7) →
     action_by_event slot_order 7 sevens_world = None)
  ∧ ((∃ a, a ∈ actions sevens_world ∧ event a = 7) →
       ∃ a, action_by_event slot_order 7 sevens_world = Some a
            ∧ a ∈ actions sevens_world ∧ event a = 7)
  ∧ (∀ a, a ∈ actions sevens_world → event a = 7 →
       (∀ b, b ∈ actions sevens_world → event b = 7 → b = a) →
       action_by_event slot_order 7 sevens_world = Some a).
Proof.
  apply (action_by_event_finds_a_match slot_order 7 sevens_world).
  - apply slot_order_perm.
  - reflexivity.
Defined.

(** C9, as stated, at [sevens_world]: both actions are bound to event
    [7]; the dict yields the second one first, and that is the one
    [action_by_event] returns. *)
Lemma action_by_event_order_counterexample :
  ¬ (∀ (iteritems : list (EventAction * nat) → list (EventAction * nat))
       (e : nat) (w : World),
       (∀ d, iteritems d ≡ₚ d) →
       registry_ok w →
       action_by_event iteritems e w = first_bound e (actions_events w))
  ∧ ident <$> action_by_event slot_order 7 sevens_world = Some 4128
  ∧ ident <$> actions sevens_world = [4176; 4128].
Proof.
  split; [|split; vm_compute; reflexivity].
  intros Hclaim.
  specialize (Hclaim slot_order 7 sevens_world slot_order_perm sevens_world_ok).
  apply (f_equal (fmap ident)) in Hclaim.
  vm_compute in Hclaim. discriminate Hclaim.
Qed.

(** * Further properties *)

(** ** The registry: [add_action], [event_by_action], [__init__] *)

Lemma dict_getitem_setitem (k : EventAction) (v : nat)
    (d : list (EventAction * nat)) :
  dict_getitem k (dict_setitem k v d) = Some v.
Proof.
  induction d as [|[k' v'] d IH]; simpl.
  - by rewrite Nat.eqb_refl.
  - destruct (Nat.eqb (ident k') (ident k)) eqn:Hk; simpl; by rewrite Hk.
Qed.

Lemma dict_getitem_setitem_other (k b : EventAction) (v : nat)
    (d : list (EventAction * nat)) :
  ident b ≠ ident k →
  dict_getitem b (dict_setitem k v d) = dict_getitem b d.
Proof.
  intros Hne. induction d as [|[k' v'] d IH]; simpl.
  - destruct (Nat.eqb_spec (ident k) (ident b)); [congruence|done].
  - destruct (Nat.eqb_spec (ident k') (ident k)) as [Hk|Hk]; simpl.
    + destruct (Nat.eqb_spec (ident k') (ident b)); [congruence|done].
    + by rewrite IH.
Qed.

(** X1: after [add_action] has accepted an action, [event_by_action]
    gives its event; the answer for an action of another identity is
    what it was; and the action stands last in [actions]. *)
Theorem add_action_then_event_by_action (a : EventAction) (w w' : World)
    (r : PyVal) :
  add_action a w = Ok r w' →
  event_by_action a w' = Some (event a)
  ∧ (∀ b, ident b ≠ ident a → event_by_action b w' = event_by_action b w)
  ∧ actions w' = actions w ++ [a].
Proof.
  unfold add_action, event_by_action.
  destruct (action_in a (actions w)); [done|]. intros [= <- <-]. simpl.
  split; [apply dict_getitem_setitem|]. split; [|done].
  intros b Hb. by apply dict_getitem_setitem_other.
Qed.

Lemma add_action_then_event_by_action_witness :
  event_by_action happened pretty_built = Some 2
  ∧ (∀ b, ident b ≠ 200 →
       event_by_action b pretty_built = event_by_action b pretty_init)
  ∧ actions pretty_built = actions pretty_init ++ [happened].
Proof.
  apply (add_action_then_event_by_action happened pretty_init pretty_built VNone).
  reflexivity.
Defined.

(** X2: [__init__] never fails.  The worker it builds is not quitting,
    has an empty trace, holds the action for the quit event and nothing
    else (nothing at all without a quit event), and its registry
    satisfies the invariant. *)
Theorem init_builds_registry tgt pos kw (e_quit ec : option nat)
    (qid : nat) (s : gset nat) :
  ∃ w, init tgt pos kw e_quit ec qid s = Ok VNone w
       ∧ registry_inv w
       ∧ actions w = match e_quit with
                     | Some q => [quit_action qid q]
                     | None => []
                     end
       ∧ to_quit w = false ∧ trace w = [] ∧ signals w = s
       ∧ target w = tgt ∧ self_args w = pos ∧ self_kwargs w = kw.
Proof.
  unfold init, add_action, registry_inv, registry_ok.
  destruct e_quit as [q|]; simpl; eexists; (split; [reflexivity|]); simpl.
  - repeat split. apply NoDup_singleton.
  - repeat split. apply NoDup_nil_2.
Qed.

(** X3: [add_action] keeps the registry invariant, whether it accepts
    the action or raises. *)
Theorem add_action_keeps_registry (a : EventAction) (w : World) :
  registry_inv w → registry_inv (final (add_action a w)).
Proof.
  intros [Hok Hnd]. unfold add_action.
  destruct (action_in a (actions w)) eqn:Hin; simpl; [by split|].
  split.
  - unfold registry_ok. simpl. rewrite Hok, dict_setitem_fresh by done.
    by rewrite fmap_app.
  - simpl. rewrite fmap_app. apply NoDup_app. split; [done|].
    split; [|apply NoDup_singleton].
    intros i Hi ->%list_elem_of_singleton.
    by apply (action_in_false a (actions w)).
Qed.

Lemma add_action_keeps_registry_witness :
  registry_inv (final (add_action happened pretty_init)).
Proof.
  apply (add_action_keeps_registry happened pretty_init).
  split; [reflexivity|]. apply (bool_decide_unpack _). reflexivity.
Defined.

Lemma dict_getitem_registered (a : EventAction) (l : list EventAction) :
  NoDup (ident <$> l) → a ∈ l →
  dict_getitem a ((λ a, (a, event a)) <$> l) = Some (event a).
Proof.
  induction l as [|b l IH]; intros Hnd Hin; [by apply elem_of_nil in Hin|].
  rewrite fmap_cons in Hnd. apply NoDup_cons in Hnd as [Hb Hnd].
  rewrite fmap_cons. cbn [dict_getitem].
  apply elem_of_cons in Hin as [->|Hin]; [by rewrite Nat.eqb_refl|].
  destruct (Nat.eqb_spec (ident b) (ident a)) as [Heq|_]; [|by apply IH].
  destruct Hb. rewrite Heq. apply list_elem_of_fmap. by exists a.
Qed.

Lemma dict_getitem_unregistered (a : EventAction) (l : list EventAction) :
  action_in a l = false →
  dict_getitem a ((λ a, (a, event a)) <$> l) = None.
Proof.
  induction l as [|b l IH]; [done|].
  intros Hin. apply orb_false_iff in Hin as [Hb Hl].
  rewrite fmap_cons. cbn [dict_getitem]. rewrite Hb. by apply IH.
Qed.

(** X4: in a registry that satisfies the invariant, [event_by_action]
    gives the event of every registered action, and [None] for an action
    whose identity is not registered. *)
Theorem event_by_action_registered (w : World) :
  registry_inv w →
  (∀ a, a ∈ actions w → event_by_action a w = Some (event a))
  ∧ (∀ a, action_in a (actions w) = false → event_by_action a w = None).
Proof.
  intros [Hok Hnd]. unfold event_by_action. rewrite Hok. split.
  - intros a Ha. by apply dict_getitem_registered.
  - intros a Ha. by apply dict_getitem_unregistered.
Qed.

Lemma event_by_action_registered_witness :
  (∀ a, a ∈ actions pretty_built → event_by_action a pretty_built = Some (event a))
  ∧ (∀ a, action_in a (actions pretty_built) = false →
       event_by_action a pretty_built = None).
Proof.
  apply (event_by_action_registered pretty_built).
  split; [reflexivity|]. apply (bool_decide_unpack _). reflexivity.
Defined.

(** ** Detection and dispatch, whatever the callbacks do *)




Lemma invoke_trace (a : EventAction) (w : World) :
  trace (final (invoke a w)) = trace w ++ [obs_of a].
Proof. unfold invoke. by rewrite call_trace. Qed.

(** X6: when [process_events] returns, it has invoked the callback of
    each action of its list once, in the order of the list, on the
    captured arguments, and nothing else. *)
Theorem process_events_in_order (l : list EventAction) (w w' : World)
    (r : PyVal) :
  process_events l w = Ok r w' →
  r = VNone ∧ trace w' = trace w ++ (obs_of <$> l).
Proof.
  revert w. induction l as [|a l IH]; intros w; simpl; unfold_M.
  - intros [= <- <-]. by rewrite app_nil_r.
  - unfold call_action. pose proof (invoke_trace a w) as Ht.
    destruct (invoke a w) as [v w1|]; [|done]. simpl in Ht.
    intros Hl. apply IH in Hl as [-> Hl]. split; [done|].
    rewrite Hl. simpl. rewrite Ht. by rewrite <- app_assoc.
Qed.

Lemma process_events_in_order_witness :
  VNone = VNone
  ∧ trace (final (process_events three_actions three_world))
    = trace three_world ++ (obs_of <$> three_actions).
Proof.
  apply (process_events_in_order three_actions three_world
           (final (process_events three_actions three_world)) VNone).
  vm_compute. reflexivity.
Defined.

(** X7: when [process_events] raises, the exception is the one raised by
    the callback of some action of the list; the actions before it were
    dispatched in full, its own event was not cleared by the worker (the
    world is the one its callback raised in), and no later callback was
    invoked. *)
Theorem process_events_stops_at_failure (l : list EventAction)
    (w w' : World) (e : PyExc) :
  process_events l w = Raise e w' →
  ∃ l1 a l2 w1,
    l = l1 ++ a :: l2
    ∧ process_events l1 w = Ok VNone w1
    ∧ invoke a w1 = Raise e w'
    ∧ trace w' = trace w ++ (obs_of <$> l1) ++ [obs_of a].
Proof.
  revert w. induction l as [|a l IH]; intros w; simpl; unfold_M; [done|].
  unfold call_action. pose proof (invoke_trace a w) as Ht.
  destruct (invoke a w) as [v w1|e1 w1] eqn:Hi; simpl in Ht.
  - intros Hl. apply IH in Hl as (l1 & b & l2 & w2 & -> & Hl1 & Hb & Htr).
    exists (a :: l1), b, l2, w2. split; [done|].
    split; [|split; [done|]].
    + simpl. unfold_M. unfold call_action. by rewrite Hi.
    + rewrite Htr. simpl. rewrite Ht. by rewrite <- app_assoc.
  - intros [= <- <-]. exists [], a, l, w. by repeat split.
Qed.

Lemma process_events_stops_at_failure_witness :
  ∃ l1 a l2 w1,
    fail_actions = l1 ++ a :: l2
    ∧ process_events l1 fail_world = Ok VNone w1
    ∧ invoke a w1 = Raise (UserError (VStr "boom"))
                          (final (process_events fail_actions fail_world))
    ∧ trace (final (process_events fail_actions fail_world))
      = trace fail_world ++ (obs_of <$> l1) ++ [obs_of a].
Proof.
  apply (process_events_stops_at_failure fail_actions fail_world).
  vm_compute. reflexivity.
Defined.

Example fail_world_dispatch :
  trace (final (process_events fail_actions fail_world))
  = [ObsCall 10 [] []; ObsCall 20 [] []]
  ∧ bool_decide (2 ∈ signals (final (process_events fail_actions fail_world)))
    = true
  ∧ bool_decide (1 ∈ signals (final (process_events fail_actions fail_world)))
    = false.
Proof. repeat split; vm_compute; reflexivity. Qed.

Lemma work_calls_app (tr1 tr2 : list Obs) :
  work_calls (tr1 ++ tr2) = work_calls tr1 + work_calls tr2.
Proof.
  induction tr1 as [|o tr1 IH]; [done|]. destruct o; simpl; by rewrite IH.
Qed.

Lemma result_calls_app (tr1 tr2 : list Obs) :
  result_calls (tr1 ++ tr2) = result_calls tr1 + result_calls tr2.
Proof.
  induction tr1 as [|o tr1 IH]; [done|]. destruct o; simpl; by rewrite IH.
Qed.

Lemma calls_from_no_work (L : list EventAction) (tr : list Obs) :
  calls_from L tr → work_calls tr = 0 ∧ result_calls tr = 0.
Proof. induction 1 as [|o tr (a & _ & ->) _ IH]; [done|]. exact IH. Qed.


(** ** A pass over quiet callbacks *)

Lemma invoke_quiet_world (a : EventAction) (w : World) :
  quiet a → ∃ v, invoke a w = Ok v (invoked a w).
Proof.
  unfold quiet, invoke, call, invoked, is_quit_call, obs_of.
  destruct (action a) as [|f].
  - intros [-> ->]. by exists VNone.
  - intros Hf. simpl. destruct (Hf (signals w)) as [v ->].
    exists v. by destruct w.
Qed.

Lemma invoked_fields (a : EventAction) (w : World) :
  signals (invoked a w) = signals w
  ∧ trace (invoked a w) = trace w ++ [obs_of a]
  ∧ actions (invoked a w) = actions w
  ∧ to_quit (invoked a w) = to_quit w || is_quit_call a.
Proof.
  unfold invoked. destruct (is_quit_call a); simpl;
    repeat split; by rewrite ?orb_true_r, ?orb_false_r.
Qed.

Lemma is_set_quiet_world (a : EventAction) (w : World) :
  (opt_automatic a = true → quiet a) →
  is_set a w = Ok (bool_decide (event a ∈ signals w))
                  (if bool_decide (event a ∈ signals w) && opt_automatic a
                   then invoked a w else w).
Proof.
  intros Hq. unfold is_set, event_is_set. unfold_M.
  destruct (bool_decide _) eqn:Hp, (opt_automatic a) eqn:Ha; simpl; try done.
  by destruct (invoke_quiet_world a w (Hq eq_refl)) as [v ->].
Qed.

Lemma detected_fields (l : list EventAction) (w : World) :
  signals (detected l w) = signals w
  ∧ actions (detected l w) = actions w
  ∧ trace (detected l w)
    = trace w ++ (obs_of <$> filter (λ a, event a ∈ signals w
                                          ∧ opt_automatic a = true) l).
Proof.
  unfold detected. revert w. induction l as [|a l IH]; intros w; simpl.
  - by rewrite app_nil_r.
  - destruct (IH (if bool_decide (event a ∈ signals w) && opt_automatic a
                  then invoked a w else w)) as (Hs & Ha & Ht).
    destruct (invoked_fields a w) as (Is & It & Ia & _).
    rewrite Hs, Ha, Ht, filter_cons.
    destruct (bool_decide (event a ∈ signals w)) eqn:Hp,
             (opt_automatic a) eqn:Hauto; simpl.
    + apply bool_decide_eq_true in Hp.
      rewrite decide_True by done.
      rewrite Is, Ia, It, fmap_cons, <- app_assoc. done.
    + rewrite decide_False by (intros [_ ?]; done). done.
    + apply bool_decide_eq_false in Hp.
      rewrite decide_False by (intros [? _]; done). done.
    + rewrite decide_False by (intros [_ ?]; done). done.
Qed.

Lemma check_events_loop_quiet_world (l acc : list EventAction) (w : World) :
  Forall (λ a, opt_automatic a = true → quiet a) l →
  check_events_loop l acc w
  = Ok (acc ++ filter (λ a, event a ∈ signals w) l) (detected l w).
Proof.
  intros Hl. revert acc w. unfold detected.
  induction Hl as [|a l Ha Hl IH]; intros acc w; simpl; unfold_M.
  - by rewrite app_nil_r.
  - rewrite (is_set_quiet_world a w Ha), IH. f_equal.
    assert (Hs : signals (if bool_decide (event a ∈ signals w) && opt_automatic a
                          then invoked a w else w) = signals w).
    { destruct (_ && _); [apply invoked_fields|done]. }
    rewrite Hs, filter_cons. case_bool_decide as Hd.
    + rewrite decide_True by done. by rewrite <- app_assoc.
    + by rewrite decide_False by done.
Qed.

Lemma process_events_quiet_world (l : list EventAction) (w : World) :
  Forall quiet l → process_events l w = Ok VNone (dispatched l w).
Proof.
  intros Hl. revert w. unfold dispatched.
  induction Hl as [|a l Ha Hl IH]; intros w; simpl; unfold_M; [done|].
  unfold call_action. destruct (invoke_quiet_world a w Ha) as [v ->].
  unfold event_clear at 1. by rewrite IH.
Qed.

Lemma dispatched_fields (l : list EventAction) (w : World) :
  signals (dispatched l w) = signals w ∖ list_to_set (event <$> l)
  ∧ actions (dispatched l w) = actions w
  ∧ trace (dispatched l w) = trace w ++ (obs_of <$> l).
Proof.
  unfold dispatched. revert w. induction l as [|a l IH]; intros w.
  - simpl. rewrite app_nil_r. split; [|done]. by rewrite difference_empty_L.
  - cbn [foldl].
    destruct (IH (final (event_clear (event a) (invoked a w))))
      as (Hs & Ha & Ht).
    destruct (invoked_fields a w) as (Is & It & Ia & _).
    rewrite Hs, Ha, Ht. cbn [final event_clear set_signals signals actions trace].
    rewrite Is, Ia, It, <- app_assoc, fmap_cons.
    split; [|done]. by rewrite difference_difference_l_L.
Qed.

Lemma check_events_loop_unset (l acc : list EventAction) (w : World) :
  (∀ a, a ∈ l → event a ∉ signals w) →
  check_events_loop l acc w = Ok acc w.
Proof.
  revert acc. induction l as [|a l IH]; intros acc Hl; simpl; [done|].
  unfold_M. rewrite is_set_unset by apply Hl, list_elem_of_here.
  apply IH. intros b Hb. by apply Hl, list_elem_of_further.
Qed.

Lemma detect_dispatch_quiet_world (w : World) :
  Forall quiet (actions w) →
  detect_dispatch w
  = Ok VNone (dispatched (filter (λ a, event a ∈ signals w) (actions w))
                         (detected (actions w) w)).
Proof.
  intros Hq. unfold detect_dispatch, check_events. unfold_M.
  rewrite check_events_loop_quiet_world
    by (eapply Forall_impl; [exact Hq|done]).
  cbn [app]. apply process_events_quiet_world.
  apply Forall_forall. intros a [_ Ha]%list_elem_of_filter.
  by apply (proj1 (Forall_forall _ _) Hq).
Qed.

Lemma quiet_round_signals (w : World) :
  signals (dispatched (filter (λ a, event a ∈ signals w) (actions w))
                      (detected (actions w) w))
  = signals w ∖ list_to_set (event <$> actions w).
Proof.
  destruct (detected_fields (actions w) w) as (Ds & _ & _).
  destruct (dispatched_fields (filter (λ a, event a ∈ signals w) (actions w))
              (detected (actions w) w)) as (Ps & _ & _).
  rewrite Ps, Ds. apply set_eq. intros e.
  rewrite !elem_of_difference, !elem_of_list_to_set, !list_elem_of_fmap.
  split; intros [He Hn]; (split; [done|]); intros (a & -> & Ha); apply Hn;
    exists a; (split; [done|]).
  - by apply list_elem_of_filter.
  - by apply list_elem_of_filter in Ha as [_ Ha].
Qed.

(** X9: one round of detection and dispatch when the callbacks of all
    registered actions are quiet.  It returns; the automatic actions
    whose event was set were invoked during detection, then every action
    whose event was set was invoked by dispatch, both in registration
    order; every registered event is clear afterwards and the other
    events are as they were; a second detection finds nothing and
    changes nothing. *)
Theorem quiet_round_handles_every_event (w : World) :
  Forall quiet (actions w) →
  ∃ w', detect_dispatch w = Ok VNone w'
    ∧ signals w' = signals w ∖ list_to_set (event <$> actions w)
    ∧ trace w'
      = trace w
        ++ (obs_of <$> filter (λ a, event a ∈ signals w
                                    ∧ opt_automatic a = true) (actions w))
        ++ (obs_of <$> filter (λ a, event a ∈ signals w) (actions w))
    ∧ check_events w' = Ok [] w'.
Proof.
  intros Hq. rewrite (detect_dispatch_quiet_world w Hq).
  set (hit := filter (λ a, event a ∈ signals w) (actions w)).
  pose proof (quiet_round_signals w) as Hsig. fold hit in Hsig.
  destruct (detected_fields (actions w) w) as (Ds & Da & Dt).
  destruct (dispatched_fields hit (detected (actions w) w)) as (Ps & Pa & Pt).
  eexists. split; [reflexivity|]. split; [exact Hsig|].
  split; [by rewrite Pt, Dt, <- app_assoc|].
  unfold check_events. rewrite Pa, Da. apply check_events_loop_unset.
  intros a Ha. rewrite Hsig, elem_of_difference, elem_of_list_to_set.
  intros [_ Hn]. apply Hn, list_elem_of_fmap. by exists a.
Qed.

Lemma quiet_round_handles_every_event_witness :
  ∃ w', detect_dispatch (signal_all [3; 2] three_world) = Ok VNone w'
    ∧ signals w' = signals (signal_all [3; 2] three_world)
                     ∖ list_to_set (event <$> actions (signal_all [3; 2] three_world))
    ∧ trace w'
      = trace (signal_all [3; 2] three_world)
        ++ (obs_of <$> filter (λ a, event a ∈ signals (signal_all [3; 2] three_world)
                                    ∧ opt_automatic a = true)
                         (actions (signal_all [3; 2] three_world)))
        ++ (obs_of <$> filter (λ a, event a ∈ signals (signal_all [3; 2] three_world))
                         (actions (signal_all [3; 2] three_world)))
    ∧ check_events w' = Ok [] w'.
Proof.
  apply (quiet_round_handles_every_event (signal_all [3; 2] three_world)).
  repeat constructor; intros s; by exists VNone.
Defined.

Example three_world_round :
  trace (final (detect_dispatch (signal_all [3; 2] three_world)))
  = [ObsCall 20 [VStr "bla"] []; ObsCall 20 [VStr "bla"] []; ObsCall 30 [] []].
Proof. vm_compute. reflexivity. Qed.

(** ** Passes of the loop *)

(** A pass of [WorkerBase.run] under the methods of the base class. *)
Lemma run_body_base (w : World) :
  @run_body base_hooks w
  = match detect_dispatch w with
    | Ok _ w2 =>
        match do_work VNone w2 with
        | Ok res w3 => Ok Continue (record (ObsResult res) w3)
        | Raise e w3 => Raise e w3
        end
    | Raise e w2 => Raise e w2
    end.
Proof.
  unfold run_body, detect_dispatch, call_do_result. unfold_M.
  cbn [do_postevents do_postwork do_result base_hooks].
  destruct (check_events w) as [acts w1|]; [|done].
  destruct (process_events acts w1) as [r w2|]; [|done].
  rewrite run_hook_return. cbn [py_eq Z.b2z Z.eqb].
  destruct (do_work VNone w2) as [res w3|]; [|done].
  by rewrite !run_hook_return.
Qed.

Lemma do_work_fn (f : UserFn) (w : World) (s' : gset nat) (v : PyVal) :
  target w = Some (Fn f) →
  f (self_args w) (self_kwargs w) (signals w) = (s', inl v) →
  do_work VNone w
  = Ok v (set_signals s' (record (ObsWork (self_args w) (self_kwargs w)) w)).
Proof.
  intros Ht Hf. unfold do_work, call_target, call. cbn [py_truthy].
  rewrite Ht. simpl. by rewrite Hf.
Qed.

Lemma detect_dispatch_idle (w : World) :
  (∀ a, a ∈ actions w → event a ∉ signals w) →
  detect_dispatch w = Ok VNone w.
Proof.
  intros Hidle. unfold detect_dispatch, check_events. unfold_M.
  by rewrite check_events_loop_unset.
Qed.

(** X10: a pass when no registered event is set and the target returns
    [v].  The pass invokes no callback, calls the target once, on the
    fixed arguments alone, hands [v] to [do_result] once, and asks for
    another pass; the events are as the target left them. *)
Theorem idle_pass_routes_result (f : UserFn) (w : World) (s' : gset nat)
    (v : PyVal) :
  (∀ a, a ∈ actions w → event a ∉ signals w) →
  target w = Some (Fn f) →
  f (self_args w) (self_kwargs w) (signals w) = (s', inl v) →
  ∃ w', @run_body base_hooks w = Ok Continue w'
    ∧ trace w' = trace w ++ [ObsWork (self_args w) (self_kwargs w); ObsResult v]
    ∧ signals w' = s' ∧ to_quit w' = to_quit w
    ∧ actions w' = actions w.
Proof.
  intros Hidle Ht Hf.
  rewrite run_body_base, (detect_dispatch_idle w Hidle), (do_work_fn f w s' v Ht Hf).
  eexists. split; [reflexivity|]. simpl. by rewrite <- app_assoc.
Qed.

Lemma idle_pass_routes_result_witness :
  ∃ w', @run_body base_hooks forty_two_world = Ok Continue w'
    ∧ trace w' = trace forty_two_world
                   ++ [ObsWork (self_args forty_two_world)
                               (self_kwargs forty_two_world);
                       ObsResult (VInt 42)]
    ∧ signals w' = {[5]} ∧ to_quit w' = to_quit forty_two_world
    ∧ actions w' = actions forty_two_world.
Proof.
  apply (idle_pass_routes_result (λ _ _ s, (s, inl (VInt 42))) forty_two_world).
  - intros a Ha. by apply elem_of_nil in Ha.
  - reflexivity.
  - reflexivity.
Defined.

Lemma invoke_returns (a : EventAction) (w : World) :
  always_returns (action a) →
  ∃ v w', invoke a w = Ok v w' ∧ to_quit w' = to_quit w.
Proof.
  unfold invoke, call. destruct (action a) as [|f]; [done|]. intros Hf.
  destruct (Hf (args a) (kwargs a)
              (signals (record (ObsCall (ident a) (args a) (kwargs a)) w)))
    as (s' & v & ->).
  by eexists _, _.
Qed.

Lemma is_set_returns (a : EventAction) (w : World) :
  always_returns (action a) →
  ∃ b w', is_set a w = Ok b w' ∧ to_quit w' = to_quit w.
Proof.
  intros Ha. unfold is_set, event_is_set. unfold_M.
  destruct (bool_decide _ && opt_automatic a); [|by eexists _, _].
  destruct (invoke_returns a w Ha) as (v & w' & -> & Hq). by eexists _, _.
Qed.

Lemma check_events_loop_returns (l acc : list EventAction) (w : World) :
  Forall (λ a, always_returns (action a)) l →
  ∃ r w', check_events_loop l acc w = Ok r w' ∧ to_quit w' = to_quit w.
Proof.
  intros Hl. revert acc w.
  induction Hl as [|a l Ha Hl IH]; intros acc w; simpl; unfold_M.
  - by eexists _, _.
  - destruct (is_set_returns a w Ha) as (b & w1 & -> & Hq1).
    destruct (IH (if b then acc ++ [a] else acc) w1) as (r & w2 & -> & Hq2).
    eexists _, _. split; [done|congruence].
Qed.

Lemma process_events_returns (l : list EventAction) (w : World) :
  Forall (λ a, always_returns (action a)) l →
  ∃ w', process_events l w = Ok VNone w' ∧ to_quit w' = to_quit w.
Proof.
  intros Hl. revert w.
  induction Hl as [|a l Ha Hl IH]; intros w; simpl; unfold_M.
  - by eexists.
  - unfold call_action.
    destruct (invoke_returns a w Ha) as (v & w1 & -> & Hq1).
    destruct (IH (final (event_clear (event a) w1))) as (w2 & Hp & Hq2).
    exists w2. split; [exact Hp|]. by rewrite Hq2.
Qed.

Lemma detect_dispatch_returns (w : World) :
  Forall (λ a, always_returns (action a)) (actions w) →
  ∃ w', detect_dispatch w = Ok VNone w' ∧ to_quit w' = to_quit w.
Proof.
  intros Hl. unfold detect_dispatch, check_events. unfold_M.
  destruct (check_events_loop_returns (actions w) [] w Hl)
    as (r & w1 & Hc & Hq1).
  rewrite Hc. apply check_events_loop_acc in Hc as (r' & -> & Hr').
  destruct (process_events_returns r' w1) as (w2 & Hp & Hq2).
  { apply Forall_forall. intros a Ha.
    by apply (proj1 (Forall_forall _ _) Hl), Hr'. }
  exists w2. split; [exact Hp|congruence].
Qed.

Lemma pass_returns (c : Callable) (w : World) :
  Forall (λ a, always_returns (action a)) (actions w) →
  target w = Some c → always_returns c →
  ∃ w', @run_body base_hooks w = Ok Continue w'
    ∧ to_quit w' = to_quit w
    ∧ actions w' = actions w ∧ target w' = target w
    ∧ work_calls (trace w') = S (work_calls (trace w))
    ∧ result_calls (trace w') = S (result_calls (trace w)).
Proof.
  intros Hl Ht Hc. rewrite run_body_base.
  destruct (detect_dispatch_returns w Hl) as (w2 & Hd & Hq2).
  pose proof (detect_dispatch_steps w) as Hs. rewrite Hd in *. simpl in Hs.
  destruct Hs as [Et _ _ Ea _ _ (tr & Etr & Ftr)].
  apply calls_from_no_work in Ftr as [Fw Fr].
  destruct c as [|f]; [done|].
  destruct (Hc (self_args w2) (self_kwargs w2) (signals w2)) as (s' & v & Hf).
  rewrite (do_work_fn f w2 s' v) by congruence.
  eexists. split; [reflexivity|]. simpl.
  repeat split; try done.
  - rewrite Etr, !work_calls_app, Fw. simpl. lia.
  - rewrite Etr, !result_calls_app, Fr. simpl. lia.
Qed.

(** X11: when neither the target nor any callback ever raises, no
    callback is [_quit] and the hooks are those of the base class, the
    loop does not stop by itself: whatever the bound [n] on the number
    of passes, it makes [n] passes, each with one call of the target and
    one of [do_result], and is still running. *)
Theorem run_never_stops_unasked (c : Callable) (w : World) (n : nat) :
  to_quit w = false →
  Forall (λ a, always_returns (action a)) (actions w) →
  target w = Some c → always_returns c →
  ∃ w', @run base_hooks n w = Ok OutOfFuel w'
    ∧ to_quit w' = false
    ∧ work_calls (trace w') = work_calls (trace w) + n
    ∧ result_calls (trace w') = result_calls (trace w) + n.
Proof.
  intros Hq Hl Ht Hc. unfold run. revert w Hq Hl Ht.
  induction n as [|n IH]; intros w Hq Hl Ht; simpl; rewrite Hq.
  - exists w. repeat split; [done|lia|lia].
  - unfold_M.
    destruct (pass_returns c w Hl Ht Hc) as (w1 & -> & Hq1 & Ha1 & Ht1 & Hw & Hr).
    destruct (IH w1) as (w2 & Hrun & Hq2 & Hw2 & Hr2); [congruence..|].
    exists w2. split; [exact Hrun|]. split; [done|]. lia.
Qed.

Lemma run_never_stops_unasked_witness :
  ∃ w', @run base_hooks 4 three_world = Ok OutOfFuel w'
    ∧ to_quit w' = false
    ∧ work_calls (trace w') = work_calls (trace three_world) + 4
    ∧ result_calls (trace w') = result_calls (trace three_world) + 4.
Proof.
  apply (run_never_stops_unasked nop three_world 4).
  - reflexivity.
  - repeat constructor; intros pos kw s; by exists s, VNone.
  - reflexivity.
  - intros pos kw s. by exists s, VNone.
Defined.

(** X12: a worker without a target (the default) under the methods of
    the base class.  A pass does detection and dispatch and then fails
    with [TypeError] at the call of the target; [run] never returns, not
    even when the quit event is set. *)
Theorem run_without_target_raises (w : World) (n : nat) :
  target w = None →
  to_quit w = false →
  @run base_hooks (S n) w
  = match detect_dispatch w with
    | Ok _ w2 => Raise (TypeError "'NoneType' object is not callable") w2
    | Raise e w2 => Raise e w2
    end
  ∧ ∀ o w', @run base_hooks (S n) w ≠ Ok o w'.
Proof.
  intros Ht Hq.
  assert (Hrun : @run base_hooks (S n) w
    = match detect_dispatch w with
      | Ok _ w2 => Raise (TypeError "'NoneType' object is not callable") w2
      | Raise e w2 => Raise e w2
      end).
  { unfold run. simpl. rewrite Hq. unfold_M. rewrite run_body_base.
    pose proof (detect_dispatch_steps w) as Hs.
    destruct (detect_dispatch w) as [r w2|]; [|done]. simpl in Hs.
    destruct Hs as [Et _ _ _ _ _ _].
    unfold do_work, call_target. cbn [py_truthy]. by rewrite Et, Ht. }
  split; [exact Hrun|].
  intros o w'. rewrite Hrun. by destruct (detect_dispatch w).
Qed.

Lemma run_without_target_raises_witness :
  @run base_hooks 1 veto_world
  = match detect_dispatch veto_world with
    | Ok _ w2 => Raise (TypeError "'NoneType' object is not callable") w2
    | Raise e w2 => Raise e w2
    end
  ∧ ∀ o w', @run base_hooks 1 veto_world ≠ Ok o w'.
Proof. apply (run_without_target_raises veto_world 0); reflexivity. Defined.

Lemma add_actions_appends (l : list EventAction) (w w' : World) (r : PyVal) :
  add_actions l w = Ok r w' → actions w' = actions w ++ l.
Proof.
  revert w. induction l as [|a l IH]; intros w; simpl; unfold_M.
  - intros [= <- <-]. by rewrite app_nil_r.
  - destruct (add_action a w) as [v w1|] eqn:Ha; [|done].
    intros Hl. apply IH in Hl. apply add_action_appends in Ha as (Ha & _).
    by rewrite Hl, Ha, <- app_assoc.
Qed.

Lemma dispatched_to_quit (l : list EventAction) (w : World) :
  to_quit (dispatched l w) = to_quit w || existsb is_quit_call l.
Proof.
  unfold dispatched. revert w. induction l as [|a l IH]; intros w.
  - simpl. by rewrite orb_false_r.
  - cbn [foldl existsb]. rewrite IH.
    cbn [final event_clear set_signals to_quit].
    destruct (invoked_fields a w) as (_ & _ & _ & ->).
    by rewrite orb_assoc.
Qed.

(** X13: a worker built with a quit event, running, with that event
    set, whose other callbacks and whose target are quiet.  [run] stops
    after this pass with [to_quit] set, and the worker has cleared the
    quit event, like every other registered event: a second worker that
    shares the event and polls it afterwards finds it unset. *)
Theorem quit_event_is_consumed
    tgt pos kw q ec qid s0 (extra : list EventAction)
    (r0 r1 : PyVal) (w0 w1 w : World) (f : UserFn) (n : nat) :
  init tgt pos kw (Some q) ec qid s0 = Ok r0 w0 →
  add_actions extra w0 = Ok r1 w1 →
  Forall quiet extra →
  actions w = actions w1 →
  target w = Some (Fn f) →
  (∀ s, ∃ v, f (self_args w) (self_kwargs w) s = (s, inl v)) →
  to_quit w = false →
  q ∈ signals w →
  ∃ w', @run base_hooks (S n) w = Ok Stopped w'
    ∧ to_quit w' = true
    ∧ (q ∉ signals w')
    ∧ signals w' = signals w ∖ list_to_set (event <$> actions w).
Proof.
  intros Hi Ha Hextra Hacts Ht Hf Hq Hset.
  apply init_registers_quit in Hi as (Hi & _).
  apply add_actions_appends in Ha. rewrite Hi in Ha. rewrite Ha in Hacts.
  clear Hi Ha. simpl in Hacts.
  assert (Hquiet : Forall quiet (actions w)).
  { rewrite Hacts. constructor; [by split|done]. }
  pose proof (detect_dispatch_quiet_world w Hquiet) as Hd.
  pose proof (quiet_round_signals w) as Hsig.
  pose proof (detect_dispatch_steps w) as Hs.
  set (w2 := dispatched _ _) in *. rewrite Hd in Hs. simpl in Hs.
  destruct Hs as [Et Ea Ek _ _ _ _].
  assert (Hq2 : to_quit w2 = true).
  { subst w2. rewrite dispatched_to_quit. apply orb_true_iff. right.
    rewrite Hacts, filter_cons. cbn [quit_action event].
    by rewrite decide_True. }
  assert (Hclear : q ∉ signals w2).
  { rewrite Hsig, Hacts. rewrite fmap_cons. cbn [quit_action event list_to_set].
    apply not_elem_of_difference. right. apply elem_of_union. left.
    by apply elem_of_singleton. }
  destruct (Hf (signals w2)) as [v Hv].
  unfold run. simpl. rewrite Hq. unfold_M.
  rewrite run_body_base, Hd.
  rewrite (do_work_fn f w2 (signals w2) v) by congruence.
  rewrite loop_quitting by done.
  eexists. split; [reflexivity|]. simpl. done.
Qed.

Lemma quit_event_is_consumed_witness :
  ∃ w', @run base_hooks 1 pretty_quitting = Ok Stopped w'
    ∧ to_quit w' = true
    ∧ (1 ∉ signals w')
    ∧ signals w' = signals pretty_quitting
                     ∖ list_to_set (event <$> actions pretty_quitting).
Proof.
  apply (quit_event_is_consumed (Some echo) [VStr "Hello world!"] []
           1 None 100 ∅ [happened] VNone VNone pretty_init pretty_built
           pretty_quitting (λ pos _ s, (s, inl (VTuple pos))) 0).
  - reflexivity.
  - reflexivity.
  - repeat constructor. intros s. by exists VNone.
  - reflexivity.
  - reflexivity.
  - intros s. by eexists.
  - reflexivity.
  - apply (bool_decide_unpack _). reflexivity.
Defined.

(** X14: the command-aware loop under a [do_command] that only vetoes,
    when the callbacks of the automatic actions are quiet.  A running
    loop does detection, calls the hook and stops: nothing is dispatched,
    so the events are all as they were, still set, and the only callbacks
    invoked are those detection fired for automatic actions. *)
Theorem command_veto_skips_dispatch `{H : Hooks} (w : World) (n : nat) :
  (∀ s q, do_command s q = ((s, q), inl (VBool false))) →
  Forall (λ a, opt_automatic a = true → quiet a) (actions w) →
  to_quit w = false →
  ∃ w', run_polling (S n) w = Ok Stopped w'
    ∧ signals w' = signals w
    ∧ trace w'
      = trace w ++ (obs_of <$> filter (λ a, event a ∈ signals w
                                            ∧ opt_automatic a = true)
                                 (actions w)).
Proof.
  intros Hc Hl Hq. unfold run_polling, run_body_polling. simpl. rewrite Hq.
  unfold_M. unfold check_events.
  rewrite (check_events_loop_quiet_world (actions w) [] w Hl).
  unfold run_hook. rewrite Hc. cbn [py_eq Z.b2z Z.eqb].
  destruct (detected_fields (actions w) w) as (Ds & _ & Dt).
  eexists. split; [reflexivity|]. simpl. by rewrite Ds, Dt.
Qed.

Lemma command_veto_skips_dispatch_witness :
  ∃ w', @run_polling command_veto_hooks 1 (signal_all [3; 2] three_world)
        = Ok Stopped w'
    ∧ signals w' = signals (signal_all [3; 2] three_world)
    ∧ trace w'
      = trace (signal_all [3; 2] three_world)
        ++ (obs_of <$> filter (λ a, event a ∈ signals (signal_all [3; 2] three_world)
                                    ∧ opt_automatic a = true)
                         (actions (signal_all [3; 2] three_world))).
Proof.
  apply (@command_veto_skips_dispatch command_veto_hooks
           (signal_all [3; 2] three_world) 0).
  - reflexivity.
  - repeat constructor; intros _ s; by exists VNone.
  - reflexivity.
Defined.

(** X15: under a [do_postwork] that returns [False] whatever it is
    given, a running loop makes exactly one pass: a pass that returns
    ends in [break]. *)
Theorem postwork_veto_one_pass `{H : Hooks} (w : World) (n : nat) :
  (∀ s q, (do_postwork s q).2 = inl (VBool false)) →
  to_quit w = false →
  run (S n) w
  = match run_body w with
    | Ok _ w' => Ok Stopped w'
    | Raise e w' => Raise e w'
    end
  ∧ ∀ f w', run_body w = Ok f w' → f = Break.
Proof.
  intros Hv Hq.
  assert (Hb : ∀ f w', run_body w = Ok f w' → f = Break).
  { intros f w'. unfold run_body. unfold_M.
    destruct (check_events w) as [acts w1|]; [|done].
    destruct (process_events acts w1) as [r w2|]; [|done].
    destruct (run_hook do_postevents w2) as [v w3|]; [|done].
    destruct (py_eq (VBool false) v); [by intros [= <- _]|].
    destruct (do_work VNone w3) as [res w4|]; [|done].
    destruct (call_do_result res w4) as [x w5|]; [|done].
    unfold run_hook. specialize (Hv (signals w5) (to_quit w5)).
    destruct (do_postwork (signals w5) (to_quit w5)) as [[s q] o].
    simpl in Hv. subst o. cbn [py_eq Z.b2z Z.eqb]. by intros [= <- _]. }
  split; [|exact Hb].
  unfold run. simpl. rewrite Hq. unfold_M.
  destruct (run_body w) as [f w'|] eqn:Hr; [|done].
  by rewrite (Hb f w' eq_refl).
Qed.

Lemma postwork_veto_one_pass_witness :
  @run (const_hooks VNone (VBool true) (VBool false)) 3 forty_two_world
  = match @run_body (const_hooks VNone (VBool true) (VBool false))
            forty_two_world with
    | Ok _ w' => Ok Stopped w'
    | Raise e w' => Raise e w'
    end
  ∧ ∀ f w', @run_body (const_hooks VNone (VBool true) (VBool false))
              forty_two_world = Ok f w' → f = Break.
Proof.
  apply (@postwork_veto_one_pass (const_hooks VNone (VBool true) (VBool false))
           forty_two_world 2); reflexivity.
Defined.

(** ** The skeleton [Worker] *)

Lemma run_hook_trace (h : HookFn) (w : World) :
  trace (final (run_hook h w)) = trace w.
Proof.
  unfold run_hook. by destruct (h (signals w) (to_quit w)) as [[s q] [v|e]].
Qed.

(** X16: [run] as the class [Worker] defines it, on a running worker.  It
    never gets to dispatch: after [do_command] it either stops, when the
    hook returned something equal to [False], or dies with
    [AttributeError] at [self.do_process_events]; with the [do_command]
    of the class it always dies.  It invokes no callback, never calls
    the target and never calls [do_result]. *)
Theorem skeleton_run_never_dispatches `{H : Hooks} (w : World) (n : nat) :
  to_quit w = false →
  Worker.run (S n) w
  = match run_hook do_command w with
    | Ok v w1 =>
        if py_eq (VBool false) v then Ok Stopped w1
        else Raise (Worker.AttributeError "do_process_events") w1
    | Raise e w1 => Raise e w1
    end
  ∧ trace (final (Worker.run (S n) w)) = trace w
  ∧ @Worker.run base_hooks (S n) w
    = Raise (Worker.AttributeError "do_process_events") w.
Proof.
  intros Hq.
  assert (Hrun : ∀ H' : Hooks, @Worker.run H' (S n) w
    = match run_hook (@do_command H') w with
      | Ok v w1 =>
          if py_eq (VBool false) v then Ok Stopped w1
          else Raise (Worker.AttributeError "do_process_events") w1
      | Raise e w1 => Raise e w1
      end).
  { intros H'. unfold Worker.run, Worker.run_body, Worker.check_events,
      Worker.do_process_events, raise. cbn [loop]. rewrite Hq. unfold_M.
    destruct (run_hook do_command w) as [v w1|]; [|done].
    by destruct (py_eq (VBool false) v). }
  split; [apply Hrun|]. split.
  - rewrite Hrun. pose proof (run_hook_trace do_command w) as Ht.
    destruct (run_hook do_command w) as [v w1|]; [|done].
    by destruct (py_eq (VBool false) v).
  - rewrite Hrun. cbn [do_command base_hooks]. by rewrite run_hook_return.
Qed.

Lemma skeleton_run_never_dispatches_witness :
  @Worker.run veto_hooks 2 veto_world
  = match run_hook (@do_command veto_hooks) veto_world with
    | Ok v w1 =>
        if py_eq (VBool false) v then Ok Stopped w1
        else Raise (Worker.AttributeError "do_process_events") w1
    | Raise e w1 => Raise e w1
    end
  ∧ trace (final (@Worker.run veto_hooks 2 veto_world)) = trace veto_world
  ∧ @Worker.run base_hooks 2 veto_world
    = Raise (Worker.AttributeError "do_process_events") veto_world.
Proof. apply (@skeleton_run_never_dispatches veto_hooks veto_world 1). reflexivity. Defined.

(** ** [EventAction]: construction, [set] and [clear] *)

(** X17: an action built without the option [automatic_trigger], or with
    a false value for it, is not automatic, whatever other options it
    was given: [is_set] returns the flag of the event and invokes
    nothing. *)
Theorem automatic_needs_its_option (i e : nat) (act : Callable)
    (pos : list PyVal) (kw options : Kwargs) (w : World) :
  (∀ v, options_get "automatic_trigger" options = Some v → py_truthy v = false) →
  is_set (EventAction_init i e act pos kw options) w
  = Ok (bool_decide (e ∈ signals w)) w.
Proof.
  intros Hopt. unfold is_set, event_is_set, EventAction_init. unfold_M.
  cbn [event opt_automatic].
  destruct (options_get "automatic_trigger" options) as [v|].
  - rewrite (Hopt v eq_refl). by rewrite andb_false_r.
  - by rewrite andb_false_r.
Qed.

Lemma automatic_needs_its_option_witness :
  is_set (EventAction_init 7 3 failing [] []
            [("automatic", VBool true); ("automatic_trigger", VInt 0)])
         veto_world
  = Ok (bool_decide (3 ∈ signals veto_world)) veto_world.
Proof.
  apply (automatic_needs_its_option 7 3 failing [] []
           [("automatic", VBool true); ("automatic_trigger", VInt 0)] veto_world).
  intros v [= <-]. reflexivity.
Defined.

(** X18: [set] and [clear] of an action act on its event alone and
    leave the trace alone; doing either twice is doing it once; after
    [set], [is_set] on a non-automatic action returns [True]; after
    [clear], [is_set] returns [False] and invokes nothing, automatic or
    not. *)
Theorem set_and_clear_delegate (a : EventAction) (w : World) :
  (∃ w1, set a w = Ok VNone w1
     ∧ signals w1 = {[event a]} ∪ signals w ∧ trace w1 = trace w
     ∧ set a w1 = Ok VNone w1
     ∧ (opt_automatic a = false → is_set a w1 = Ok true w1))
  ∧ (∃ w2, clear a w = Ok VNone w2
       ∧ signals w2 = signals w ∖ {[event a]} ∧ trace w2 = trace w
       ∧ clear a w2 = Ok VNone w2
       ∧ is_set a w2 = Ok false w2).
Proof.
  split.
  - eexists. split; [reflexivity|]. simpl. repeat split.
    + unfold set, event_set, set_signals. simpl. do 2 f_equal.
      by rewrite (assoc_L (∪)), union_idemp_L.
    + intros Ha. unfold is_set, event_is_set. unfold_M. simpl.
      rewrite Ha, bool_decide_eq_true_2; [done|].
      apply elem_of_union. left. by apply elem_of_singleton.
  - eexists. split; [reflexivity|]. simpl. repeat split.
    + unfold clear, event_clear, set_signals. simpl. do 2 f_equal.
      rewrite difference_difference_l_L. by rewrite union_idemp_L.
    + apply is_set_unset. simpl.
      apply not_elem_of_difference. right. by apply elem_of_singleton.
Qed.

(** ** Registering twice, and how often a round invokes a callback *)

(** X19: once [add_action] has accepted an action, every further
    [add_action] of an object of that identity raises and leaves the
    worker as it is. *)
Theorem add_action_only_once (a b : EventAction) (w w' : World) (r : PyVal) :
  add_action a w = Ok r w' →
  ident b = ident a →
  ∃ msg, add_action b w' = Raise (Exception msg) w'.
Proof.
  intros Ha Hb. apply add_action_appends in Ha as (Ha & _).
  unfold add_action.
  assert (Hin : action_in b (actions w') = true).
  { rewrite Ha. unfold action_in. rewrite existsb_app. simpl.
    by rewrite Hb, Nat.eqb_refl, orb_true_r. }
  rewrite Hin. by eexists.
Qed.

Lemma add_action_only_once_witness :
  ∃ msg, add_action happened pretty_built = Raise (Exception msg) pretty_built.
Proof.
  apply (add_action_only_once happened happened pretty_init pretty_built VNone);
    reflexivity.
Defined.

Lemma calls_of_filter (P : EventAction → Prop) `{!∀ a, Decision (P a)}
    (a : EventAction) (l : list EventAction) :
  NoDup (ident <$> l) → a ∈ l →
  calls_of (ident a) (obs_of <$> filter P l) = if decide (P a) then 1 else 0.
Proof.
  assert (Hout : ∀ l', ident a ∉ ident <$> l' →
                       calls_of (ident a) (obs_of <$> filter P l') = 0).
  { induction l' as [|b l' IH]; [done|]. rewrite fmap_cons.
    intros Hn. apply not_elem_of_cons in Hn as [Hb Hl'].
    rewrite filter_cons. destruct (decide (P b)); [|by apply IH].
    rewrite fmap_cons. simpl.
    destruct (Nat.eqb_spec (ident a) (ident b)); [done|]. by apply IH. }
  induction l as [|b l IH]; intros Hnd Hin; [by apply elem_of_nil in Hin|].
  rewrite fmap_cons in Hnd. apply NoDup_cons in Hnd as [Hb Hnd].
  rewrite filter_cons. apply elem_of_cons in Hin as [->|Hin].
  - destruct (decide (P b)); [|by apply Hout].
    rewrite fmap_cons. simpl. rewrite Nat.eqb_refl, Hout; done.
  - assert (Hne : ident a ≠ ident b).
    { intros Heq. apply Hb. rewrite <- Heq. apply list_elem_of_fmap. by exists a. }
    destruct (decide (P b)); [|by apply IH].
    rewrite fmap_cons. simpl.
    destruct (Nat.eqb_spec (ident a) (ident b)); [done|]. by apply IH.
Qed.

(** X20: one round of detection and dispatch over quiet callbacks, in a
    registry without duplicate identities.  The callback of a registered
    action whose event is not set is not invoked; when the event is set,
    it is invoked once if the action is not automatic, and twice if it
    is: once by [is_set] during detection and once more by dispatch. *)
Theorem round_invocation_counts (a : EventAction) (w : World) :
  Forall quiet (actions w) →
  NoDup (ident <$> actions w) →
  a ∈ actions w →
  ∃ w', detect_dispatch w = Ok VNone w'
    ∧ calls_of (ident a) (trace w')
      = calls_of (ident a) (trace w)
        + (if bool_decide (event a ∈ signals w)
           then (if opt_automatic a then 2 else 1)
           else 0).
Proof.
  intros Hq Hnd Ha. rewrite (detect_dispatch_quiet_world w Hq).
  eexists. split; [reflexivity|].
  destruct (detected_fields (actions w) w) as (_ & _ & Dt).
  destruct (dispatched_fields (filter (λ a, event a ∈ signals w) (actions w))
              (detected (actions w) w)) as (_ & _ & Pt).
  rewrite Pt, Dt, !calls_of_app, !calls_of_filter by done.
  case_bool_decide as Hset.
  - rewrite (decide_True (P := event a ∈ signals w)) by done.
    destruct (opt_automatic a) eqn:Hauto.
    + rewrite decide_True by done. lia.
    + rewrite decide_False by (intros [_ ?]; done). lia.
  - rewrite (decide_False (P := event a ∈ signals w)) by done.
    rewrite decide_False by (intros [? _]; done). lia.
Qed.

Lemma round_invocation_counts_witness :
  ∃ w', detect_dispatch auto_signaled = Ok VNone w'
    ∧ calls_of 20 (trace w')
      = calls_of 20 (trace auto_signaled)
        + (if bool_decide (2 ∈ signals auto_signaled)
           then (if opt_automatic auto_ping then 2 else 1)
           else 0).
Proof.
  apply (round_invocation_counts auto_ping auto_signaled).
  - repeat constructor. intros s. by exists VNone.
  - apply (bool_decide_unpack _). reflexivity.
  - apply list_elem_of_here.
Defined.
